(** * Advertisement reconciliation of the autoretrieve provider

    A shallow embedding of [autoretrieve/autoretrieve.go]: the context-ID
    codec ([makeContextID], [readContextID]), the multihash iterator
    ([NewIterator], [Iterator.Next]) and one tick of [Provider.Run], with the
    properties the specification states about them.

    Conventions.
    - Go's [uint] is taken at 64 bits and modelled as [Z] with the wrap-around
      written out ([uint]); [uint32(x)] is [uint32 x]; a byte is a [Z] below 256.
    - A Go call that returns [(T, error)] returns a [result T]; a run-time
      panic (slice bounds out of range) is the third constructor [Panic].
    - The tables are lists of rows in insertion order. A statement on the
      database can fail: whether it does is decided by an oracle
      ([Database] for the ledger, [query_error] for the catalog), and a
      [Create] is refused besides when it breaks the declared constraint.
    - The clock is read once for each autoretrieve, when its turn comes;
      the readings of a tick are a function of the position in the list.
    - Packages outside the repository ([peer], [cid]) are interfaces
      ([PeerLib], [CidLib]); every general theorem holds for every instance.
    - Debug and info log lines are not modelled; warnings and errors are,
      without the values they print, the CID string of a parse warning
      apart. *)

From Stdlib Require Import String Ascii ZArith List Bool Lia.
Import ListNotations.
Local Open Scope Z_scope.

(** ** Machine integers and bytes *)

Definition uint (x : Z) : Z := x mod 2 ^ 64.
Definition uint32 (x : Z) : Z := x mod 2 ^ 32.
Definition byte (x : Z) : Z := x mod 2 ^ 8.

(** ** Results of fallible calls *)

Inductive result (A : Type) : Type :=
| Ok (a : A)
| Err (msg : string)
| Panic (msg : string).
Arguments Ok {A} a.
Arguments Err {A} msg.
Arguments Panic {A} msg.

Definition bind {A B} (r : result A) (k : A -> result B) : result B :=
  match r with
  | Ok a => k a
  | Err m => Err m
  | Panic m => Panic m
  end.

Notation "x <- r ;; k" := (bind r (fun x => k))
  (at level 61, r at next level, right associativity).

(** ** Slices

    [s[lo:hi]] panics unless [lo <= hi <= len(s)]; [s[lo:]] is [s[lo:len(s)]]. *)

Definition slice (s : list Z) (lo hi : nat) : result (list Z) :=
  if ((lo <=? hi)%nat && (hi <=? length s)%nat)%bool
  then Ok (firstn (hi - lo) (skipn lo s))
  else Panic "slice bounds out of range".

Definition slice_from (s : list Z) (lo : nat) : result (list Z) :=
  slice s lo (length s).

(** [copy(s[lo:], src)] for a source that fits: the write goes through to the
    underlying array of [s]. *)
Definition set_slice (s : list Z) (lo : nat) (src : list Z) : list Z :=
  firstn lo s ++ src ++ skipn (lo + length src) s.

(** ** encoding/binary, big endian *)

Module BigEndian.

(** The four bytes [PutUint32] stores, most significant first. *)
Definition bytes32 (v : Z) : list Z :=
  [byte (Z.shiftr v 24); byte (Z.shiftr v 16); byte (Z.shiftr v 8); byte v].

(** [PutUint32(s[lo:lo+4], v)]: the write goes through to [s]. *)
Definition PutUint32 (s : list Z) (lo : nat) (v : Z) : result (list Z) :=
  _ <- slice s lo (lo + 4) ;;
  Ok (set_slice s lo (bytes32 v)).

Definition Uint32 (b : list Z) : result Z :=
  match b with
  | b0 :: b1 :: b2 :: b3 :: _ =>
      Ok (Z.lor (Z.lor (Z.lor (uint32 b3) (uint32 (Z.shiftl b2 8)))
                       (uint32 (Z.shiftl b1 16)))
                (uint32 (Z.shiftl b0 24)))
  | _ => Panic "index out of range"
  end.

End BigEndian.

(** ** Strings *)

(** [[]byte(s)]. *)
Definition bytes_of_string (s : string) : list Z :=
  map (fun c => Z.of_nat (nat_of_ascii c)) (list_ascii_of_string s).

(** [strings.Split(s, sep)] for a one-character separator; the result is
    never empty. *)
Fixpoint Split (s : string) (sep : ascii) : list string :=
  match s with
  | EmptyString => [EmptyString]
  | String c rest =>
      if Ascii.eqb c sep then EmptyString :: Split rest sep
      else match Split rest sep with
           | field :: fields => String c field :: fields
           | [] => [String c EmptyString]
           end
  end.

(** ** Packages peer and cid, as interfaces *)

Class PeerLib : Type := {
  PeerID : Type;
  AddrInfo : Type;
  AddrInfo_ID : AddrInfo -> PeerID;
  (** [peer.ID.MarshalBinary]; [None] is a serialization error. *)
  MarshalBinary : PeerID -> option (list Z);
  (** [peer.IDFromBytes]; [None] is a parse error. *)
  IDFromBytes : list Z -> option PeerID;
  (** [peer.AddrInfoFromString]. *)
  AddrInfoFromString : string -> option AddrInfo
}.

Class CidLib : Type := {
  Cid : Type;
  Multihash : Type;
  (** [cid.CidFromBytes]: the number of bytes read and the CID. *)
  CidFromBytes : list Z -> option (nat * Cid);
  Hash : Cid -> Multihash
}.

(** ** The context-ID codec *)

Section ContextCodec.
Context `{PeerLib}.

Record contextParams : Type := {
  provider : PeerID;
  firstContentID : Z;
  count : Z
}.

Definition makeContextID (params : contextParams) : result (list Z) :=
  let contextID := repeat 0 8 in
  contextID <- BigEndian.PutUint32 contextID 0 (uint32 (firstContentID params)) ;;
  contextID <- BigEndian.PutUint32 contextID 4 (uint32 (count params)) ;;
  match MarshalBinary (provider params) with
  | None => Err "failed to write context peer ID"
  | Some peerIDBytes => Ok (contextID ++ peerIDBytes)
  end.

Definition readContextID (contextID : list Z) : result contextParams :=
  tail <- slice_from contextID 8 ;;
  match IDFromBytes tail with
  | None => Err "failed to read context peer ID"
  | Some peerID =>
      b0 <- slice contextID 0 4 ;;
      first <- BigEndian.Uint32 b0 ;;
      b4 <- slice contextID 4 8 ;;
      cnt <- BigEndian.Uint32 b4 ;;
      Ok {| provider := peerID;
            firstContentID := uint first;
            count := uint cnt |}
  end.

End ContextCodec.

(** ** The catalog and the multihash iterator *)

Record Object : Type := { object_id : Z; object_cid : string }.
Record ObjRef : Type := { ref_content : Z; ref_object : Z }.

(** The catalog: its two tables, the error of the query when the database
    cannot answer, and the error it gives for an argument that does not fit
    a signed 64-bit integer. *)
Record Catalog : Type := {
  objects : list Object;
  obj_refs : list ObjRef;
  query_error : option string;
  range_error : string
}.

Inductive level : Type := Warn | Error.

(** SQL [x BETWEEN lo AND hi]: both ends included. *)
Definition BETWEEN (x lo hi : Z) : bool := (lo <=? x) && (x <=? hi).

(** [SELECT objects.cid FROM objects LEFT JOIN obj_refs
     ON objects.id = obj_refs.object WHERE obj_refs.content BETWEEN lo AND hi]:
    one row per pair of an object and a reference to it whose content is in
    range; the condition on [obj_refs] drops the objects without reference. *)
Definition select_cids (db : Catalog) (lo hi : Z) : list string :=
  flat_map
    (fun o =>
       map (fun _ => object_cid o)
           (filter (fun r => (ref_object r =? object_id o)
                             && BETWEEN (ref_content r) lo hi)
                   (obj_refs db)))
    (objects db).

(** [db.Raw(...).Scan(&cidStrings)]: the two bounds are sent as signed
    64-bit integers, so a bound of 2^63 or more is refused before the query
    runs; the query can fail; otherwise it gives its rows. *)
Definition db_Raw_Scan (db : Catalog) (lo hi : Z) : result (list string) :=
  if (lo <? 2 ^ 63) && (hi <? 2 ^ 63)
  then
    match query_error db with
    | Some e => Err e
    | None => Ok (select_cids db lo hi)
    end
  else Err (range_error db).

Section Iterator.
Context `{CidLib}.

Record Iterator : Type := {
  mhs : list Multihash;
  index : Z;
  iter_firstContentID : Z;
  iter_count : Z
}.

(** The body of the parsing loop, on the hashes and the warnings gathered
    so far: a CID string that does not parse is skipped with a warning. *)
Definition parse_step (acc : list Multihash * list (level * string))
  (cidString : string) : list Multihash * list (level * string) :=
  let '(mhs, warnings) := acc in
  match CidFromBytes (bytes_of_string cidString) with
  | None =>
      (mhs,
       warnings
       ++ [(Warn, ("Failed to parse CID string " ++ cidString)%string)])
  | Some (_, c) => (mhs ++ [Hash c], warnings)
  end.

(** [NewIterator]: what it returns, and the warnings it logs. *)
Definition NewIterator (db : Catalog) (firstContentID count : Z)
  : result Iterator * list (level * string) :=
  match db_Raw_Scan db firstContentID (uint (firstContentID + count)) with
  | Panic m => (Panic m, [])
  | Err e => (Err e, [])
  | Ok cidStrings =>
      if (length cidStrings =? 0)%nat
      then (Err "no multihashes for this content", [])
      else
        let '(mhs, warnings) := fold_left parse_step cidStrings ([], []) in
        (Ok {| mhs := mhs;
               index := 0;
               iter_firstContentID := firstContentID;
               iter_count := count |},
         warnings)
  end.

Definition Next (iter : Iterator) : result Multihash * Iterator :=
  if index iter =? Z.of_nat (length (mhs iter))
  then (Err "EOF", iter)
  else
    match nth_error (mhs iter) (Z.to_nat (index iter)) with
    | Some mh =>
        (Ok mh,
         {| mhs := mhs iter;
            index := uint (index iter + 1);
            iter_firstContentID := iter_firstContentID iter;
            iter_count := iter_count iter |})
    | None => (Panic "index out of range", iter)
    end.

End Iterator.

(** ** The tables the loop reads and writes *)

Record Autoretrieve : Type := {
  Handle : string;
  Token : string;
  LastConnection : Z;
  LastAdvertisement : Z;
  PubKey : string;
  Addresses : string
}.

(** A batch that has been published for a specific autoretrieve. [ID] is the
    primary key of the embedded [gorm.Model]. *)
Record PublishedBatch : Type := {
  ID : Z;
  FirstContentID : Z;
  Count : Z;
  AutoretrieveHandle : string
}.

(** [db.Where("autoretrieve_handle = ? AND first_content_id = ?", ...).Find]. *)
Definition db_Where (rows : list PublishedBatch) (handle : string)
  (firstContentID : Z) : list PublishedBatch :=
  filter (fun r => String.eqb (AutoretrieveHandle r) handle
                   && (FirstContentID r =? firstContentID))
         rows.

(** [db.Create]: the column [FirstContentID] is declared [gorm:"unique"], so
    a row whose first content ID is already in the table is refused, whatever
    its handle. The new row takes the next primary key. *)
Definition db_Create (rows : list PublishedBatch) (next_id : Z)
  (row : PublishedBatch) : option (list PublishedBatch) :=
  if existsb (fun r => FirstContentID r =? FirstContentID row) rows
  then None
  else Some (rows ++ [{| ID := next_id;
                         FirstContentID := FirstContentID row;
                         Count := Count row;
                         AutoretrieveHandle := AutoretrieveHandle row |}]).

(** [db.Save] of a row read from the table: an update by primary key. *)
Definition db_Save (rows : list PublishedBatch) (row : PublishedBatch)
  : list PublishedBatch :=
  map (fun r => if ID r =? ID row then row else r) rows.

Definition set_Count (row : PublishedBatch) (count : Z) : PublishedBatch :=
  {| ID := ID row;
     FirstContentID := FirstContentID row;
     Count := count;
     AutoretrieveHandle := AutoretrieveHandle row |}.

(** What a read of a table gives. *)
Inductive fetched (A : Type) : Type :=
| Found (a : A)
| ErrRecordNotFound
| ErrOther.
Arguments Found {A} a.
Arguments ErrRecordNotFound {A}.
Arguments ErrOther {A}.

(** ** The provider *)

Record Provider : Type := {
  advertisementInterval : Z;
  batchSize : Z
}.

Definition NewProvider (advertisementInterval : Z) : Provider :=
  {| advertisementInterval := advertisementInterval; batchSize := 25000 |}.

Inductive metadata : Type := Bitswap.

Section Run.
Context `{PeerLib}.

Definition Autoretrieve_AddrInfo (autoretrieve : Autoretrieve)
  : option AddrInfo :=
  let addresses := Split (Addresses autoretrieve) ","%char in
  AddrInfoFromString (hd EmptyString addresses).

(** The calls the loop makes on the index-provider engine. *)
Inductive call : Type :=
| NotifyPut (addrInfo : AddrInfo) (contextID : list Z) (md : metadata)
| NotifyRemove (peerID : PeerID) (contextID : list Z).

Definition call_contextID (c : call) : list Z :=
  match c with
  | NotifyPut _ contextID _ => contextID
  | NotifyRemove _ contextID => contextID
  end.

(** The engine and the network behind it: whether a call succeeds, given
    the calls made before it. *)
Definition Engine : Type := list call -> call -> bool.

(** The statements the loop sends to the ledger table. *)
Inductive query : Type :=
| Where (handle : string) (firstContentID : Z)
| Create (row : PublishedBatch)
| Save (row : PublishedBatch).

(** The database behind the ledger: whether it carries a statement out or
    returns an error, given the statements sent before. *)
Definition Database : Type := list query -> query -> bool.

Record State : Type := {
  published_batches : list PublishedBatch;
  next_id : Z;
  calls : list call;
  queries : list query;
  logs : list (level * string)
}.

Definition log_line (st : State) (l : level) (msg : string) : State :=
  {| published_batches := published_batches st;
     next_id := next_id st;
     calls := calls st;
     queries := queries st;
     logs := logs st ++ [(l, msg)] |}.

Definition record_call (st : State) (c : call) : State :=
  {| published_batches := published_batches st;
     next_id := next_id st;
     calls := calls st ++ [c];
     queries := queries st;
     logs := logs st |}.

Definition record_query (st : State) (q : query) : State :=
  {| published_batches := published_batches st;
     next_id := next_id st;
     calls := calls st;
     queries := queries st ++ [q];
     logs := logs st |}.

Definition set_batches (st : State) (rows : list PublishedBatch)
  (next : Z) : State :=
  {| published_batches := rows;
     next_id := next;
     calls := calls st;
     queries := queries st;
     logs := logs st |}.

(** A call on the engine: recorded, and answered by the engine. *)
Definition engine_call (engine : Engine) (st : State) (c : call)
  : bool * State :=
  (engine (calls st) c, record_call st c).

(** A statement on the ledger: recorded, and answered by the database. *)
Definition database_query (database : Database) (st : State) (q : query)
  : bool * State :=
  (database (queries st) q, record_query st q).

(** The size of the batch that starts at [firstContentID]. *)
Definition batch_count (provider : Provider) (firstContentID lastContentID : Z)
  : Z :=
  let count := batchSize provider in
  let remaining := uint (lastContentID - firstContentID) in
  if remaining <? count then remaining else count.

(** The body of the loop over the batches of one autoretrieve. The three
    cases are tested in the order of the source. *)
Definition advertise_batch (provider : Provider) (engine : Engine)
  (database : Database) (autoretrieve : Autoretrieve) (addrInfo : AddrInfo)
  (firstContentID count : Z) (st : State) : result State :=
  (* Search for an entry *)
  let '(found, st) :=
    database_query database st
      (Where (Handle autoretrieve) firstContentID) in
  if negb found
  then Ok (log_line st Error "Failed to get published contents")
  else
    let publishedBatches :=
      db_Where (published_batches st) (Handle autoretrieve) firstContentID in
    (* 1. fully advertised, or no changes: do nothing *)
    if match publishedBatches with
       | [] => false
       | publishedBatch :: _ => Count publishedBatch =? count
       end
    then Ok st
    else
      match makeContextID {| provider := AddrInfo_ID addrInfo;
                             firstContentID := firstContentID;
                             count := batchSize provider |} with
      | Panic m => Panic m
      | Err _ => Ok (log_line st Error "Failed to make context ID")
      | Ok contextID =>
          match publishedBatches with
          | [] =>
              (* 2. not advertised: notify put, create DB entry *)
              let '(put, st) :=
                engine_call engine st
                  (NotifyPut addrInfo contextID Bitswap) in
              if put
              then
                let row := {| ID := 0;
                              FirstContentID := firstContentID;
                              Count := count;
                              AutoretrieveHandle := Handle autoretrieve |} in
                let '(created, st) :=
                  database_query database st (Create row) in
                match (if created
                       then db_Create (published_batches st) (next_id st) row
                       else None) with
                | Some rows => Ok (set_batches st rows (next_id st + 1))
                | None =>
                    Ok (log_line st Error "Failed to write batch to database")
                end
              else Ok (log_line st Error "Failed to publish batch")
          | publishedBatch :: _ =>
              (* 3. incompletely advertised: delete and then notify put,
                 update DB entry *)
              if negb (Count publishedBatch =? count)
              then
                let '(removed, st) :=
                  engine_call engine st
                    (NotifyRemove (AddrInfo_ID addrInfo) contextID) in
                let st :=
                  if removed then st
                  else log_line st Warn
                         "Failed to remove batch (but continuing to re-publish anyway)" in
                let '(put, st) :=
                  engine_call engine st
                    (NotifyPut addrInfo contextID Bitswap) in
                if put
                then
                  let row := set_Count publishedBatch count in
                  let '(saved, st) :=
                    database_query database st (Save row) in
                  if saved
                  then Ok (set_batches st
                             (db_Save (published_batches st) row)
                             (next_id st))
                  else
                    Ok (log_line st Error "Failed to update batch in database")
                else Ok (log_line st Error "Failed to publish batch")
              else Ok st
          end
      end.

End Run.

(** The loop [for firstContentID := uint(0); firstContentID <= lastContentID;
    firstContentID += batchSize], over any body; [None] when the fuel
    runs out. *)
Fixpoint batch_loop {S : Type} (fuel : nat) (provider : Provider)
  (body : Z -> Z -> S -> result S) (firstContentID lastContentID : Z) (s : S)
  : option (result S) :=
  match fuel with
  | O => None
  | Datatypes.S fuel =>
      if firstContentID <=? lastContentID
      then
        let count := batch_count provider firstContentID lastContentID in
        match body firstContentID count s with
        | Ok s =>
            batch_loop fuel provider body
              (uint (firstContentID + batchSize provider)) lastContentID s
        | Err m => Some (Err m)
        | Panic m => Some (Panic m)
        end
      else Some (Ok s)
  end.

(** The batches the loop visits, in order. *)
Definition plan (fuel : nat) (provider : Provider) (lastContentID : Z)
  : option (result (list (Z * Z))) :=
  batch_loop fuel provider
    (fun firstContentID count batches =>
       Ok (batches ++ [(firstContentID, count)]))
    0 lastContentID [].

Section Tick.
Context `{PeerLib}.

(** [time.Since(autoretrieve.LastConnection) > provider.advertisementInterval]. *)
Definition offline (provider : Provider) (now : Z)
  (autoretrieve : Autoretrieve) : bool :=
  now - LastConnection autoretrieve >? advertisementInterval provider.

(** The turns of a tick: each autoretrieve of the list with the reading of
    the clock when its turn comes, [clock k] for the one at position [k]. *)
Definition turns (clock : nat -> Z) (autoretrieves : list Autoretrieve)
  : list (Z * Autoretrieve) :=
  combine (map clock (seq 0 (length autoretrieves))) autoretrieves.

Definition advertise_autoretrieve (fuel : nat) (provider : Provider)
  (engine : Engine) (database : Database) (lastContentID : Z)
  (turn : Z * Autoretrieve) (st : State) : option (result State) :=
  let '(now, autoretrieve) := turn in
  if offline provider now autoretrieve
  then Some (Ok st)
  else
    match Autoretrieve_AddrInfo autoretrieve with
    | None =>
        Some (Ok (log_line st Error
                    "Failed to get autoretrieve address info"))
    | Some addrInfo =>
        batch_loop fuel provider
          (advertise_batch provider engine database autoretrieve addrInfo)
          0 lastContentID st
    end.

Fixpoint advertise_autoretrieves (fuel : nat) (provider : Provider)
  (engine : Engine) (database : Database) (lastContentID : Z)
  (autoretrieves : list (Z * Autoretrieve)) (st : State)
  : option (result State) :=
  match autoretrieves with
  | [] => Some (Ok st)
  | turn :: rest =>
      match advertise_autoretrieve fuel provider engine database
              lastContentID turn st with
      | Some (Ok st) =>
          advertise_autoretrieves fuel provider engine database
            lastContentID rest st
      | other => other
      end
  end.

(** One tick of [Provider.Run], given what the two reads of the tick return:
    the last content of the catalog and the registered autoretrieves. *)
Definition tick (fuel : nat) (provider : Provider) (engine : Engine)
  (database : Database) (clock : nat -> Z) (lastContent : fetched Z)
  (autoretrieves : fetched (list Autoretrieve)) (st : State)
  : option (result State) :=
  match lastContent with
  | ErrRecordNotFound => Some (Ok st)
  | ErrOther => Some (Ok (log_line st Warn "No contents to advertise"))
  | Found lastContentID =>
      match autoretrieves with
      | Found autoretrieves =>
          advertise_autoretrieves fuel provider engine database
            lastContentID (turns clock autoretrieves) st
      | _ => Some (Ok (log_line st Error "Failed to get autoretrieves"))
      end
  end.

End Tick.

(** ** The batches in closed form *)

(** [n] batches of width [batchSize], the first one at [firstContentID]. *)
Fixpoint batches_from (n : nat) (provider : Provider)
  (firstContentID lastContentID : Z) : list (Z * Z) :=
  match n with
  | O => []
  | Datatypes.S n =>
      (firstContentID,
       Z.min (batchSize provider) (lastContentID - firstContentID))
      :: batches_from n provider (firstContentID + batchSize provider)
           lastContentID
  end.

(** How many batches start in [[firstContentID, lastContentID]]. *)
Definition batches_left (provider : Provider)
  (firstContentID lastContentID : Z) : nat :=
  if firstContentID <=? lastContentID
  then Datatypes.S
         (Z.to_nat ((lastContentID - firstContentID) / batchSize provider))
  else O.

Definition batches (provider : Provider) (lastContentID : Z) : list (Z * Z) :=
  batches_from (batches_left provider 0 lastContentID) provider 0
    lastContentID.

(** A loop body run over a list of batches. *)
Fixpoint run_batches {S : Type} (body : Z -> Z -> S -> result S)
  (bs : list (Z * Z)) (s : S) : result S :=
  match bs with
  | [] => Ok s
  | (firstContentID, count) :: bs =>
      s <- body firstContentID count s ;;
      run_batches body bs s
  end.

(** Whether a CID string parses. *)
Definition parses `{CidLib} (cidString : string) : bool :=
  match CidFromBytes (bytes_of_string cidString) with
  | None => false
  | Some _ => true
  end.

(** Half-open windows: whether [c] lies in [[first, first + count)]. *)
Definition in_window (c : Z) (batch : Z * Z) : Prop :=
  fst batch <= c < fst batch + snd batch.

(** The hashes of the CID strings that parse, in order. *)
Definition parsed_hashes `{CidLib} (cidStrings : list string)
  : list Multihash :=
  flat_map
    (fun cidString =>
       match CidFromBytes (bytes_of_string cidString) with
       | None => []
       | Some (_, c) => [Hash c]
       end)
    cidStrings.

(** The warnings for the CID strings that do not parse, in order. *)
Definition parse_warnings `{CidLib} (cidStrings : list string)
  : list (level * string) :=
  map (fun cidString =>
         (Warn, ("Failed to parse CID string " ++ cidString)%string))
      (filter (fun cidString => negb (parses cidString)) cidStrings).

(** The ledger holds at most one row per autoretrieve and first content ID. *)
Definition one_row_per_pair (rows : list PublishedBatch) : Prop :=
  forall r1 r2,
    In r1 rows -> In r2 rows ->
    AutoretrieveHandle r1 = AutoretrieveHandle r2 ->
    FirstContentID r1 = FirstContentID r2 ->
    r1 = r2.

(** The ledger has, for every batch of the list, the row of the
    autoretrieve with the planned count. *)
Definition advertised (rows : list PublishedBatch)
  (autoretrieve : Autoretrieve) (bs : list (Z * Z)) : Prop :=
  forall first cnt,
    In (first, cnt) bs ->
    exists row,
      In row rows
      /\ AutoretrieveHandle row = Handle autoretrieve
      /\ FirstContentID row = first
      /\ Count row = cnt.

(** The ledger holds at most one row per first content ID: what the
    declared constraint enforces. *)
Definition one_row_per_first (rows : list PublishedBatch) : Prop :=
  NoDup (map FirstContentID rows).

(** The invariant of the ledger: distinct first content IDs, distinct
    primary keys, all below the next key. *)
Definition ledger_ok `{PeerLib} (st : State) : Prop :=
  one_row_per_first (published_batches st)
  /\ NoDup (map ID (published_batches st))
  /\ Forall (fun r => ID r < next_id st) (published_batches st).

(** ** Instances for the worked examples

    Small stand-ins for the two packages, used only where a statement is
    evaluated on concrete data. *)

Module Example.

(** A multihash with a one-byte code and a one-byte length:
    code, length, then exactly that many digest bytes. *)
Definition multihash_ok (b : list Z) : bool :=
  match b with
  | code :: len :: digest =>
      (0 <=? code) && (code <? 128) && (0 <=? len) && (len <? 128)
      && (Z.of_nat (length digest) =? len)
  | _ => false
  end.

(** A peer ID is the byte string of its multihash, as in go-libp2p-core; an
    address string stands for the peer whose identity multihash holds the
    bytes of the string. *)
#[export] Instance peer : PeerLib := {|
  PeerID := list Z;
  AddrInfo := list Z * string;
  AddrInfo_ID := fst;
  MarshalBinary := fun id => Some id;
  IDFromBytes := fun b => if multihash_ok b then Some b else None;
  AddrInfoFromString := fun s =>
    match s with
    | EmptyString => None
    | _ => Some (0 :: Z.of_nat (String.length s) :: bytes_of_string s, s)
    end
|}.

(** Version 0 CIDs only: a 34-byte SHA2-256 multihash, which is also the
    hash of the CID. *)
#[export] Instance cid : CidLib := {|
  Cid := list Z;
  Multihash := list Z;
  CidFromBytes := fun data =>
    match data with
    | 18 :: 32 :: _ =>
        if (34 <=? length data)%nat then Some (34%nat, firstn 34 data)
        else None
    | _ => None
    end;
  Hash := fun c => c
|}.

(** The peer behind the address string [/a]. *)
Definition peerA : @PeerID peer := [0; 2; 47; 97].

Definition addrA : @AddrInfo peer := (peerA, "/a"%string).

Definition cidv0 : string :=
  String (ascii_of_nat 18) (String (ascii_of_nat 32)
    "abcdefghijklmnopqrstuvwxyz012345").

Definition empty_state : State :=
  {| published_batches := []; next_id := 1; calls := []; queries := [];
     logs := [] |}.

(** A state with the given ledger and nothing done yet. *)
Definition state_of (rows : list PublishedBatch) (next : Z) : State :=
  {| published_batches := rows; next_id := next; calls := [];
     queries := []; logs := [] |}.

(** A catalog that answers. *)
Definition catalog (objects : list Object) (obj_refs : list ObjRef)
  : Catalog :=
  {| objects := objects; obj_refs := obj_refs;
     query_error := None; range_error := "out of range" |}.

Definition node (handle addresses : string) (lastConnection : Z)
  : Autoretrieve :=
  {| Handle := handle;
     Token := handle;
     LastConnection := lastConnection;
     LastAdvertisement := 0;
     PubKey := handle;
     Addresses := addresses |}.

(** An iterator over two hashes. *)
Definition hashes : list (@Multihash cid) := [[18; 1]; [18; 2]].

Definition iterator : @Iterator cid :=
  {| mhs := hashes; index := 0; iter_firstContentID := 0; iter_count := 10 |}.

(** An engine on which every call succeeds. *)
Definition reliable : Engine := fun _ _ => true.

(** A database that carries every statement out. *)
Definition sound : Database := fun _ _ => true.

(** A clock that stands still. *)
Definition at_time (now : Z) : nat -> Z := fun _ => now.

End Example.

(** ** The multihash lister and the use of an iterator *)

(** The function [NewProvider] registers on the engine with
    [RegisterMultihashLister]: it reads the context ID of a pull request and
    builds the iterator of the batch it names. The peer of the request is
    not used. *)
Definition MultihashLister `{PeerLib} `{CidLib} (db : Catalog)
  (contextID : list Z) : result Iterator * list (level * string) :=
  match readContextID contextID with
  | Panic m => (Panic m, [])
  | Err m => (Err m, [])
  | Ok params => NewIterator db (firstContentID params) (count params)
  end.

(** [n] calls of [Next] in a row: what each returned, and the iterator
    after the last. *)
Fixpoint Next_n `{CidLib} (n : nat) (iter : Iterator)
  : list (result Multihash) * Iterator :=
  match n with
  | O => ([], iter)
  | Datatypes.S n =>
      let '(r, iter) := Next iter in
      let '(rs, iter) := Next_n n iter in
      (r :: rs, iter)
  end.

(** An iterator moved to another index. *)
Definition at_index `{CidLib} (iter : Iterator) (i : Z) : Iterator :=
  {| mhs := mhs iter;
     index := i;
     iter_firstContentID := iter_firstContentID iter;
     iter_count := iter_count iter |}.

(** [strings.Join(fields, sep)] for a one-character separator. *)
Fixpoint Join (fields : list string) (sep : ascii) : string :=
  match fields with
  | [] => EmptyString
  | [field] => field
  | field :: fields => (field ++ String sep (Join fields sep))%string
  end.

(** [strings.ContainsRune(s, c)]. *)
Fixpoint Contains (s : string) (c : ascii) : bool :=
  match s with
  | EmptyString => false
  | String c' rest => Ascii.eqb c' c || Contains rest c
  end.

(** Sequences of engine calls in which every [NotifyRemove] is followed at
    once by the [NotifyPut] of the same peer with the same context ID. *)
Inductive republished `{PeerLib} : list call -> Prop :=
| republished_nil : republished []
| republished_put (addrInfo : AddrInfo) (contextID : list Z) (md : metadata)
    (rest : list call) :
    republished rest ->
    republished (NotifyPut addrInfo contextID md :: rest)
| republished_remove (addrInfo : AddrInfo) (contextID : list Z)
    (md : metadata) (rest : list call) :
    republished rest ->
    republished (NotifyRemove (AddrInfo_ID addrInfo) contextID
                 :: NotifyPut addrInfo contextID md :: rest).

(** The columns of a ledger row that say which batch of which autoretrieve
    it is. *)
Definition row_key (r : PublishedBatch) : Z * string * Z :=
  (ID r, AutoretrieveHandle r, FirstContentID r).

(** The calls and the log lines a state has more than another. *)
Definition extends `{PeerLib} (s s' : State) : Prop :=
  exists new lines,
    calls s' = calls s ++ new
    /\ republished new
    /\ logs s' = logs s ++ lines.

(** The rows a state has more than another, the rows of the other being
    all there, in place, with their keys. *)
Definition keeps_rows `{PeerLib} (s s' : State) : Prop :=
  exists added,
    map row_key (published_batches s')
    = map row_key (published_batches s) ++ added
    /\ next_id s <= next_id s'.

(** The ledger is in order and holds rows of one autoretrieve only. *)
Definition own_ledger `{PeerLib} (autoretrieve : Autoretrieve) (s : State)
  : Prop :=
  ledger_ok s
  /\ Forall (fun r => AutoretrieveHandle r = Handle autoretrieve)
       (published_batches s).

(** The calls the loop makes for one batch of an autoretrieve, read off
    the ledger: none when the row the lookup finds first has the planned
    count or when the context ID cannot be made, a put when there is no row,
    a remove and a put otherwise. *)
Definition batch_calls `{PeerLib} (prov : Provider)
  (autoretrieve : Autoretrieve) (addrInfo : AddrInfo)
  (rows : list PublishedBatch) (batch : Z * Z) : list call :=
  let '(first, cnt) := batch in
  match makeContextID {| provider := AddrInfo_ID addrInfo;
                         firstContentID := first;
                         count := batchSize prov |} with
  | Ok contextID =>
      match db_Where rows (Handle autoretrieve) first with
      | [] => [NotifyPut addrInfo contextID Bitswap]
      | row :: _ =>
          if Count row =? cnt then []
          else [NotifyRemove (AddrInfo_ID addrInfo) contextID;
                NotifyPut addrInfo contextID Bitswap]
      end
  | _ => []
  end.

(** The calls the loop makes for one autoretrieve: none when it is offline
    or its address does not parse, those of its batches otherwise. *)
Definition autoretrieve_calls `{PeerLib} (prov : Provider)
  (rows : list PublishedBatch) (highest : Z) (turn : Z * Autoretrieve)
  : list call :=
  let '(now, autoretrieve) := turn in
  if offline prov now autoretrieve then []
  else
    match Autoretrieve_AddrInfo autoretrieve with
    | None => []
    | Some addrInfo =>
        flat_map (batch_calls prov autoretrieve addrInfo rows)
          (batches prov highest)
    end.

(** * Properties *)

(** ** The codec *)

Lemma lor_shiftl_add (a b n : Z) :
  0 <= n -> 0 <= a < 2 ^ n -> Z.lor a (Z.shiftl b n) = a + b * 2 ^ n.
Proof.
  intros Hn Ha.
  assert (Hland : Z.land a (Z.shiftl b n) = 0).
  { apply Z.bits_inj'. intros i Hi. rewrite Z.land_spec, Z.bits_0.
    destruct (Z.lt_ge_cases i n) as [Hlt | Hge].
    - rewrite (Z.shiftl_spec_low b n i Hlt). apply andb_false_r.
    - replace a with (a mod 2 ^ n) by (apply Z.mod_small; lia).
      rewrite Z.mod_pow2_bits_high by lia. reflexivity. }
  pose proof (Z.add_lor_land a (Z.shiftl b n)) as Hadd.
  rewrite Hland, Z.add_0_r in Hadd. rewrite Hadd.
  now rewrite Z.shiftl_mul_pow2 by lia.
Qed.

(** Reading back the four bytes of a 32-bit value gives the value. *)
Lemma Uint32_bytes32 (v : Z) (rest : list Z) :
  0 <= v < 2 ^ 32 ->
  BigEndian.Uint32 (BigEndian.bytes32 v ++ rest) = Ok v.
Proof.
  intros Hv. unfold BigEndian.bytes32, BigEndian.Uint32.
  cbn [app]. f_equal. unfold uint32, byte.
  rewrite !Z.shiftr_div_pow2 by lia.
  assert (H0 : 0 <= v mod 2 ^ 8 < 2 ^ 8) by (apply Z.mod_pos_bound; lia).
  assert (H1 : 0 <= (v / 2 ^ 8) mod 2 ^ 8 < 2 ^ 8)
    by (apply Z.mod_pos_bound; lia).
  assert (H2 : 0 <= (v / 2 ^ 16) mod 2 ^ 8 < 2 ^ 8)
    by (apply Z.mod_pos_bound; lia).
  assert (H3 : 0 <= (v / 2 ^ 24) mod 2 ^ 8 < 2 ^ 8)
    by (apply Z.mod_pos_bound; lia).
  rewrite !Z.shiftl_mul_pow2 by lia.
  rewrite !(Z.mod_small _ (2 ^ 32)) by lia.
  rewrite <- !Z.shiftl_mul_pow2 by lia.
  rewrite (lor_shiftl_add (v mod 2 ^ 8)) by lia.
  rewrite (lor_shiftl_add (v mod 2 ^ 8 + _)) by lia.
  rewrite (lor_shiftl_add (v mod 2 ^ 8 + _ + _)) by lia.
  pose proof (Z.div_mod v (2 ^ 8) ltac:(lia)).
  pose proof (Z.div_mod (v / 2 ^ 8) (2 ^ 8) ltac:(lia)).
  pose proof (Z.div_mod (v / 2 ^ 16) (2 ^ 8) ltac:(lia)).
  pose proof (Z.div_mod (v / 2 ^ 24) (2 ^ 8) ltac:(lia)).
  assert (v / 2 ^ 16 = v / 2 ^ 8 / 2 ^ 8)
    by (rewrite Z.div_div by lia; reflexivity).
  assert (v / 2 ^ 24 = v / 2 ^ 16 / 2 ^ 8)
    by (rewrite Z.div_div by lia; reflexivity).
  assert (v / 2 ^ 24 / 2 ^ 8 = 0).
  { rewrite Z.div_div by lia. apply Z.div_small. lia. }
  lia.
Qed.

Lemma uint32_range (x : Z) : 0 <= uint32 x < 2 ^ 32.
Proof. unfold uint32. apply Z.mod_pos_bound. lia. Qed.

Lemma uint_small (x : Z) : 0 <= x < 2 ^ 64 -> uint x = x.
Proof. intros Hx. unfold uint. now apply Z.mod_small. Qed.

Section CodecFacts.
Context `{PeerLib}.

(** The layout of a context ID: the first content ID, then the count, each
    cut to 32 bits and stored big endian, then the bytes of the peer ID. *)
Lemma makeContextID_layout (params : contextParams) :
  makeContextID params =
  match MarshalBinary (provider params) with
  | None => Err "failed to write context peer ID"
  | Some peerIDBytes =>
      Ok (BigEndian.bytes32 (uint32 (firstContentID params))
          ++ BigEndian.bytes32 (uint32 (count params))
          ++ peerIDBytes)
  end.
Proof.
  unfold makeContextID, BigEndian.PutUint32, BigEndian.bytes32.
  cbn [repeat slice length Nat.leb Nat.add andb bind set_slice firstn skipn
       app Nat.sub].
  destruct (MarshalBinary (provider params)); reflexivity.
Qed.

Lemma readContextID_layout (first cnt : Z) (peerIDBytes : list Z) :
  0 <= first < 2 ^ 32 -> 0 <= cnt < 2 ^ 32 ->
  readContextID
    (BigEndian.bytes32 first ++ BigEndian.bytes32 cnt ++ peerIDBytes) =
  match IDFromBytes peerIDBytes with
  | None => Err "failed to read context peer ID"
  | Some peerID =>
      Ok {| provider := peerID; firstContentID := first; count := cnt |}
  end.
Proof.
  intros Hf Hc. unfold readContextID, slice_from, slice.
  cbn [BigEndian.bytes32 app length Nat.leb andb bind skipn firstn Nat.sub].
  rewrite Nat.leb_refl. cbn [andb bind].
  replace (length peerIDBytes - 0)%nat with (length peerIDBytes) by lia.
  rewrite firstn_all.
  destruct (IDFromBytes peerIDBytes) as [peerID |]; [| reflexivity].
  pose proof (Uint32_bytes32 first [] Hf) as Hfirst.
  pose proof (Uint32_bytes32 cnt [] Hc) as Hcnt.
  unfold BigEndian.bytes32 in Hfirst, Hcnt. cbn [app] in Hfirst, Hcnt.
  rewrite Hfirst. cbn [bind]. rewrite Hcnt. cbn [bind].
  rewrite !uint_small by lia. reflexivity.
Qed.

Lemma read_make (peerID : PeerID) (first cnt : Z) (peerIDBytes : list Z) :
  MarshalBinary peerID = Some peerIDBytes ->
  IDFromBytes peerIDBytes = Some peerID ->
  bind (makeContextID {| provider := peerID;
                         firstContentID := first;
                         count := cnt |})
       readContextID
  = Ok {| provider := peerID;
          firstContentID := uint32 first;
          count := uint32 cnt |}.
Proof.
  intros Hmarshal Hparse. rewrite makeContextID_layout.
  cbn [provider firstContentID count]. rewrite Hmarshal. cbn [bind].
  rewrite readContextID_layout by apply uint32_range.
  now rewrite Hparse.
Qed.

End CodecFacts.

(** C1. Codec round trip. For a valid triple, that is a peer ID whose
    serialization parses back to it and a first content ID and a count that
    fit the 32-bit fields, [makeContextID] succeeds and [readContextID]
    returns the same triple from the bytes it produced. *)
Theorem readContextID_inverts_makeContextID `{PeerLib}
  (peerID : PeerID) (first cnt : Z) (peerIDBytes : list Z) :
  MarshalBinary peerID = Some peerIDBytes ->
  IDFromBytes peerIDBytes = Some peerID ->
  0 <= first < 2 ^ 32 ->
  0 <= cnt < 2 ^ 32 ->
  exists contextID,
    makeContextID {| provider := peerID;
                     firstContentID := first;
                     count := cnt |} = Ok contextID
    /\ readContextID contextID
       = Ok {| provider := peerID; firstContentID := first; count := cnt |}.
Proof.
  intros Hmarshal Hparse Hfirst Hcnt.
  pose proof (read_make peerID first cnt peerIDBytes Hmarshal Hparse) as Hrt.
  rewrite makeContextID_layout in *. cbn [provider] in *.
  rewrite Hmarshal in *. cbn [bind] in Hrt.
  eexists. split; [reflexivity |].
  rewrite Hrt. unfold uint32. now rewrite !Z.mod_small by assumption.
Qed.

Lemma readContextID_inverts_makeContextID_witness :
  exists contextID,
    makeContextID (H := Example.peer)
      {| provider := Example.peerA; firstContentID := 50000; count := 25000 |}
    = Ok contextID
    /\ readContextID (H := Example.peer) contextID
       = Ok {| provider := Example.peerA;
               firstContentID := 50000;
               count := 25000 |}.
Proof.
  apply (readContextID_inverts_makeContextID (H := Example.peer)
           Example.peerA 50000 25000 [0; 2; 47; 97]);
    [reflexivity | reflexivity | lia | lia].
Defined.

(** C2, as the code has it. On an input shorter than 8 bytes
    [readContextID] does not return an error: the slice expression
    [contextID[8:]] is evaluated first and panics. *)
Theorem readContextID_short_input_panics `{PeerLib} (contextID : list Z) :
  (length contextID < 8)%nat ->
  readContextID contextID = Panic "slice bounds out of range".
Proof.
  intros Hlen. unfold readContextID, slice_from, slice.
  destruct (Nat.leb_spec 8 (length contextID)) as [Hle | _]; [lia |].
  reflexivity.
Qed.

Lemma readContextID_short_input_panics_witness :
  (length [0; 0; 0; 5; 0; 0; 97] < 8)%nat
  /\ readContextID (H := Example.peer) [0; 0; 0; 5; 0; 0; 97]
     = Panic "slice bounds out of range".
Proof.
  split; [simpl; lia |].
  apply (readContextID_short_input_panics (H := Example.peer)).
  simpl; lia.
Defined.

(** C10. [makeContextID] cuts the first content ID and the count to 32 bits:
    two triples whose first content IDs, or counts, differ by a multiple of
    2^32 give the same bytes, and [readContextID] gives back the two values
    modulo 2^32, which is not the original value once that reaches 2^32. *)
Theorem makeContextID_truncates_to_32_bits `{PeerLib}
  (peerID : PeerID) (first cnt i j : Z) (peerIDBytes : list Z) :
  MarshalBinary peerID = Some peerIDBytes ->
  IDFromBytes peerIDBytes = Some peerID ->
  makeContextID {| provider := peerID;
                   firstContentID := first + i * 2 ^ 32;
                   count := cnt + j * 2 ^ 32 |}
  = makeContextID {| provider := peerID;
                     firstContentID := first;
                     count := cnt |}
  /\ bind (makeContextID {| provider := peerID;
                            firstContentID := first;
                            count := cnt |})
          readContextID
     = Ok {| provider := peerID;
             firstContentID := first mod 2 ^ 32;
             count := cnt mod 2 ^ 32 |}
  /\ (2 ^ 32 <= first -> first mod 2 ^ 32 <> first)
  /\ (2 ^ 32 <= cnt -> cnt mod 2 ^ 32 <> cnt).
Proof.
  intros Hmarshal Hparse. repeat split.
  - rewrite !makeContextID_layout. cbn [provider firstContentID count].
    unfold uint32. now rewrite !Z.mod_add by lia.
  - apply (read_make peerID first cnt peerIDBytes Hmarshal Hparse).
  - intros Hbig. pose proof (Z.mod_pos_bound first (2 ^ 32)). lia.
  - intros Hbig. pose proof (Z.mod_pos_bound cnt (2 ^ 32)). lia.
Qed.

Lemma makeContextID_truncates_to_32_bits_witness :
  makeContextID (H := Example.peer)
    {| provider := Example.peerA;
       firstContentID := 5 + 1 * 2 ^ 32;
       count := 7 + 2 * 2 ^ 32 |}
  = makeContextID (H := Example.peer)
      {| provider := Example.peerA; firstContentID := 5; count := 7 |}
  /\ bind (makeContextID (H := Example.peer)
             {| provider := Example.peerA;
                firstContentID := 5 + 1 * 2 ^ 32;
                count := 7 |})
          readContextID
     = Ok {| provider := Example.peerA; firstContentID := 5; count := 7 |}.
Proof.
  destruct (makeContextID_truncates_to_32_bits (H := Example.peer)
              Example.peerA 5 7 1 2 [0; 2; 47; 97] eq_refl eq_refl)
    as (Hsame & _).
  destruct (makeContextID_truncates_to_32_bits (H := Example.peer)
              Example.peerA (5 + 1 * 2 ^ 32) 7 0 0 [0; 2; 47; 97] eq_refl eq_refl)
    as (_ & Hread & _).
  split; [exact Hsame | exact Hread].
Defined.

(** ** One batch of one autoretrieve *)

Lemma db_Where_In (rows : list PublishedBatch) (handle : string)
  (first : Z) (row : PublishedBatch) :
  In row (db_Where rows handle first) <->
  In row rows /\ AutoretrieveHandle row = handle
  /\ FirstContentID row = first.
Proof.
  unfold db_Where. rewrite filter_In, andb_true_iff, String.eqb_eq, Z.eqb_eq.
  tauto.
Qed.

(** After [db_Save] of the row a query found, with a new count, the same
    query finds the row with the new count first. *)
Lemma db_Where_db_Save (rows : list PublishedBatch) (handle : string)
  (first cnt : Z) (row : PublishedBatch) (rest : list PublishedBatch) :
  db_Where rows handle first = row :: rest ->
  exists rest',
    db_Where (db_Save rows (set_Count row cnt)) handle first
    = set_Count row cnt :: rest'.
Proof.
  intros Hfound.
  assert (Hrow : AutoretrieveHandle row = handle /\ FirstContentID row = first).
  { assert (Hin : In row (db_Where rows handle first))
      by (rewrite Hfound; now left).
    apply db_Where_In in Hin. tauto. }
  destruct Hrow as [Hhandle Hfirst].
  assert (Hnew : (String.eqb (AutoretrieveHandle (set_Count row cnt)) handle
                  && (FirstContentID (set_Count row cnt) =? first)) = true).
  { cbn [set_Count AutoretrieveHandle FirstContentID].
    now rewrite Hhandle, Hfirst, String.eqb_refl, Z.eqb_refl. }
  revert Hfound. induction rows as [| r rows IH]; [discriminate |].
  unfold db_Where, db_Save in *. cbn [filter map]. cbn [ID set_Count].
  destruct (ID r =? ID row) eqn:Hid.
  - intros _. rewrite Hnew. eexists. reflexivity.
  - destruct (String.eqb (AutoretrieveHandle r) handle
              && (FirstContentID r =? first)) eqn:Hr.
    + intros Heq. injection Heq as Heq _. subst r.
      rewrite Z.eqb_refl in Hid. discriminate.
    + intros Hfound. apply IH. exact Hfound.
Qed.

Ltac batch_cases :=
  repeat match goal with
    | |- context [if ?b then _ else _] => destruct b eqn:?
    | |- context [match db_Create ?r ?n ?x with _ => _ end] =>
        destruct (db_Create r n x) eqn:?
    end.

(** Unfolds one run of the body of the loop down to the answers of the
    engine and of the database. *)
Ltac run_batch :=
  unfold advertise_batch, database_query, engine_call;
  cbn [record_query record_call log_line set_batches published_batches
       next_id calls queries logs].

(** C6. A row exists for the batch and its count is not the planned one.
    Once the lookup has returned the row, the loop calls [NotifyRemove] and
    then [NotifyPut] with the same context ID, whatever the engine answers
    to the first call; a failed [NotifyRemove] leaves a warning in the log
    and nothing else. When the put succeeds the loop saves the row with the
    planned count: if the database carries the save out, the lookup then
    finds the row with the planned count; if it does not, the ledger is
    unchanged and the failure is logged. When the put fails no save is
    sent, the ledger is unchanged, and the batch is in the same case at the
    next tick. *)
Theorem republish_when_count_differs `{PeerLib}
  (prov : Provider) (engine : Engine) (database : Database)
  (autoretrieve : Autoretrieve) (addrInfo : AddrInfo) (first cnt : Z)
  (st : State) (row : PublishedBatch) (rest : list PublishedBatch)
  (contextID : list Z) :
  database (queries st) (Where (Handle autoretrieve) first) = true ->
  db_Where (published_batches st) (Handle autoretrieve) first = row :: rest ->
  Count row <> cnt ->
  makeContextID {| provider := AddrInfo_ID addrInfo;
                   firstContentID := first;
                   count := batchSize prov |} = Ok contextID ->
  let lookup := Where (Handle autoretrieve) first in
  let remove := NotifyRemove (AddrInfo_ID addrInfo) contextID in
  let put := NotifyPut addrInfo contextID Bitswap in
  let save := Save (set_Count row cnt) in
  exists st',
    advertise_batch prov engine database autoretrieve addrInfo first cnt st
    = Ok st'
    /\ calls st' = calls st ++ [remove; put]
    /\ (engine (calls st) remove = false ->
        In (Warn,
            "Failed to remove batch (but continuing to re-publish anyway)"%string)
           (logs st'))
    /\ if engine (calls st ++ [remove]) put
       then
         queries st' = queries st ++ [lookup; save]
         /\ if database (queries st ++ [lookup]) save
            then
              published_batches st'
              = db_Save (published_batches st) (set_Count row cnt)
              /\ exists row' rest',
                   db_Where (published_batches st') (Handle autoretrieve)
                     first = row' :: rest'
                   /\ Count row' = cnt
                   /\ ID row' = ID row
            else
              published_batches st' = published_batches st
              /\ In (Error, "Failed to update batch in database"%string)
                   (logs st')
       else
         queries st' = queries st ++ [lookup]
         /\ published_batches st' = published_batches st
         /\ In (Error, "Failed to publish batch"%string) (logs st').
Proof.
  intros Hlookup Hfound Hcount Hctx lookup remove put save.
  apply Z.eqb_neq in Hcount.
  run_batch. rewrite Hlookup. cbn [negb].
  rewrite Hfound, Hctx, Hcount. cbn [negb].
  fold lookup. fold remove. fold put. fold save.
  destruct (engine (calls st) remove);
    cbn [record_query record_call log_line set_batches published_batches
         next_id calls queries logs];
    destruct (engine (calls st ++ [remove]) put);
    try destruct (database (queries st ++ [lookup]) save);
    eexists; (split; [reflexivity |]);
    cbn [record_query record_call log_line set_batches published_batches
         next_id calls queries logs];
    rewrite <- ?app_assoc; cbn [app];
    (split; [reflexivity |]);
    (split; [intros; try discriminate; rewrite ?in_app_iff; simpl; tauto |]);
    repeat (split; [reflexivity |]);
    try (rewrite ?in_app_iff; simpl; tauto);
    destruct (db_Where_db_Save _ _ _ cnt _ _ Hfound) as [rest' Hsaved];
    exists (set_Count row cnt), rest'; repeat split; exact Hsaved.
Qed.

Lemma republish_when_count_differs_witness :
  let row := {| ID := 1; FirstContentID := 50000; Count := 10000;
                AutoretrieveHandle := "A" |} in
  let st := Example.state_of [row] 2 in
  let contextID := [0; 0; 195; 80; 0; 0; 97; 168; 0; 2; 47; 97] in
  exists st',
    advertise_batch (NewProvider 100) Example.reliable Example.sound
      (Example.node "A" "/a" 0) Example.addrA 50000 25000 st = Ok st'
    /\ calls st' = [NotifyRemove Example.peerA contextID;
                    NotifyPut Example.addrA contextID Bitswap]
    /\ published_batches st'
       = [{| ID := 1; FirstContentID := 50000; Count := 25000;
             AutoretrieveHandle := "A" |}].
Proof.
  intros row st contextID.
  destruct (republish_when_count_differs (H := Example.peer)
              (NewProvider 100) Example.reliable Example.sound
              (Example.node "A" "/a" 0) Example.addrA 50000 25000 st
              row [] contextID
              eq_refl eq_refl ltac:(simpl; lia) eq_refl)
    as (st' & Hrun & Hcalls & _ & Hput).
  exists st'. split; [exact Hrun |]. split; [exact Hcalls |].
  cbn in Hput. destruct Hput as (_ & Hrows & _). exact Hrows.
Defined.

(** C8. The context ID of a batch is made from the peer, the first content
    ID and the configured batch size: bytes 0 to 4 hold the first content ID
    and bytes 4 to 8 the batch size, big endian. Whatever the planned count
    of the batch, the state of the ledger and the answers of the database,
    every call the loop makes for the batch carries these same bytes, so the
    context ID minted for a partial last batch is the one minted after the
    catalog has grown. A batch whose lookup fails gets no call; a batch
    whose lookup finds no row gets one [NotifyPut]. *)
Theorem contextID_holds_batchSize `{PeerLib}
  (prov : Provider) (engine : Engine) (database : Database)
  (autoretrieve : Autoretrieve) (addrInfo : AddrInfo) (first : Z)
  (contextID : list Z) :
  makeContextID {| provider := AddrInfo_ID addrInfo;
                   firstContentID := first;
                   count := batchSize prov |} = Ok contextID ->
  slice contextID 0 4 = Ok (BigEndian.bytes32 (uint32 first))
  /\ slice contextID 4 8
     = Ok (BigEndian.bytes32 (uint32 (batchSize prov)))
  /\ forall (cnt : Z) (st : State),
       exists st' new,
         advertise_batch prov engine database autoretrieve addrInfo first
           cnt st = Ok st'
         /\ calls st' = calls st ++ new
         /\ Forall (fun c => call_contextID c = contextID) new
         /\ (database (queries st) (Where (Handle autoretrieve) first) = false
             -> new = [])
         /\ (database (queries st) (Where (Handle autoretrieve) first) = true
             -> db_Where (published_batches st) (Handle autoretrieve) first
                = []
             -> new = [NotifyPut addrInfo contextID Bitswap]).
Proof.
  intros Hctx. pose proof Hctx as Hlayout.
  rewrite makeContextID_layout in Hlayout.
  cbn [provider firstContentID count] in Hlayout.
  destruct (MarshalBinary (AddrInfo_ID addrInfo)) as [peerIDBytes |];
    [| discriminate].
  injection Hlayout as Hlayout. split; [| split].
  - subst contextID. reflexivity.
  - subst contextID. reflexivity.
  - clear Hlayout. intros cnt st. run_batch.
    destruct (database (queries st) (Where (Handle autoretrieve) first));
      cbn [negb].
    2:{ eexists. exists []. split; [reflexivity |].
        split; [cbn; now rewrite app_nil_r |].
        split; [constructor |]. split; [reflexivity | discriminate]. }
    rewrite Hctx.
    destruct (db_Where (published_batches st) (Handle autoretrieve) first)
      as [| row rest].
    + batch_cases;
        eexists; exists [NotifyPut addrInfo contextID Bitswap];
        (split; [reflexivity |]); (split; [reflexivity |]);
        (split; [| split; [discriminate | reflexivity]]);
        repeat constructor.
    + destruct (Count row =? cnt) eqn:Hcount.
      * eexists. exists []. split; [reflexivity |].
        split; [cbn; now rewrite app_nil_r |].
        split; [constructor |]. split; discriminate.
      * cbn [negb].
        destruct (engine (calls st)
                    (NotifyRemove (AddrInfo_ID addrInfo) contextID));
          batch_cases;
          eexists;
          exists [NotifyRemove (AddrInfo_ID addrInfo) contextID;
                  NotifyPut addrInfo contextID Bitswap];
          (split; [reflexivity |]);
          (split; [cbn; now rewrite <- app_assoc |]);
          (split; [| split; discriminate]); repeat constructor.
Qed.

Lemma contextID_holds_batchSize_witness :
  let contextID := [0; 0; 195; 80; 0; 0; 97; 168; 0; 2; 47; 97] in
  makeContextID (H := Example.peer)
    {| provider := Example.peerA; firstContentID := 50000; count := 25000 |}
  = Ok contextID
  /\ slice contextID 4 8 = Ok [0; 0; 97; 168]
  /\ exists st' new,
       advertise_batch (NewProvider 100) Example.reliable Example.sound
         (Example.node "A" "/a" 0) Example.addrA 50000 10000
         Example.empty_state = Ok st'
       /\ calls st' = calls Example.empty_state ++ new
       /\ Forall (fun c => call_contextID c = contextID) new.
Proof.
  intros contextID.
  destruct (contextID_holds_batchSize (H := Example.peer)
              (NewProvider 100) Example.reliable Example.sound
              (Example.node "A" "/a" 0)
              Example.addrA 50000 contextID eq_refl)
    as (_ & Hwidth & Hcalls).
  split; [reflexivity |]. split; [exact Hwidth |].
  destruct (Hcalls 10000 Example.empty_state)
    as (st' & new & Hrun & Hnew & Hall & _).
  exists st', new. repeat split; assumption.
Defined.

(** ** The loop over the batches *)

Lemma batch_count_min (provider : Provider) (first last : Z) :
  0 <= first <= last -> last < 2 ^ 64 ->
  batch_count provider first last
  = Z.min (batchSize provider) (last - first).
Proof.
  intros Hfirst Hlast. unfold batch_count.
  rewrite uint_small by lia.
  destruct (Z.ltb_spec (last - first) (batchSize provider)); lia.
Qed.

Lemma batches_left_next (provider : Provider) (first last : Z) (n : nat) :
  0 < batchSize provider -> first <= last ->
  batches_left provider first last = S n ->
  batches_left provider (first + batchSize provider) last = n.
Proof.
  intros Hw Hle. unfold batches_left.
  destruct (Z.leb_spec first last) as [_ | ?]; [| lia].
  intros Hn. injection Hn as Hn.
  destruct (Z.leb_spec (first + batchSize provider) last) as [Hnext | Hnext].
  - replace (last - (first + batchSize provider))
      with (last - first + (-1) * batchSize provider) by lia.
    rewrite Z.div_add by lia.
    assert (1 <= (last - first) / batchSize provider)
      by (apply Z.div_le_lower_bound; lia).
    lia.
  - rewrite Z.div_small in Hn by lia. simpl in Hn. congruence.
Qed.

(** With fuel for one more test than there are batches, the loop ends, and
    it has run its body over the batches in order. *)
Lemma batch_loop_run {S : Type} (body : Z -> Z -> S -> result S)
  (provider : Provider) (last : Z) :
  0 < batchSize provider -> last + batchSize provider < 2 ^ 64 ->
  forall (n fuel : nat) (first : Z) (s : S),
    0 <= first ->
    batches_left provider first last = n ->
    (n < fuel)%nat ->
    batch_loop fuel provider body first last s
    = Some (run_batches body (batches_from n provider first last) s).
Proof.
  intros Hw Hlast. induction n as [| n IH]; intros fuel first s Hfirst Hn Hfuel.
  - destruct fuel as [| fuel]; [lia |]. cbn [batch_loop batches_from].
    unfold batches_left in Hn.
    destruct (first <=? last); [discriminate | reflexivity].
  - destruct fuel as [| fuel]; [lia |].
    assert (Hle : first <= last).
    { unfold batches_left in Hn.
      destruct (Z.leb_spec first last); [assumption | discriminate]. }
    cbn [batch_loop batches_from run_batches].
    destruct (Z.leb_spec first last) as [_ | ?]; [| lia].
    rewrite batch_count_min by lia.
    destruct (body first _ s) as [s' | m | m]; cbn [bind];
      [| reflexivity | reflexivity].
    rewrite uint_small by lia.
    apply IH; [lia | | lia].
    now apply batches_left_next.
Qed.

Lemma run_batches_collect (bs : list (Z * Z)) :
  forall acc,
    run_batches
      (fun firstContentID count batches =>
         Ok (batches ++ [(firstContentID, count)]))
      bs acc
    = Ok (acc ++ bs).
Proof.
  induction bs as [| [first cnt] bs IH]; intros acc; cbn [run_batches bind].
  - now rewrite app_nil_r.
  - rewrite IH, <- app_assoc. reflexivity.
Qed.

Lemma plan_batches (provider : Provider) (last : Z) (fuel : nat) :
  0 < batchSize provider -> 0 <= last ->
  last + batchSize provider < 2 ^ 64 ->
  (batches_left provider 0 last < fuel)%nat ->
  plan fuel provider last = Some (Ok (batches provider last)).
Proof.
  intros Hw Hlast Hmax Hfuel. unfold plan.
  rewrite (batch_loop_run _ provider last Hw Hmax
             (batches_left provider 0 last) fuel 0 [])
    by (reflexivity || lia).
  now rewrite run_batches_collect.
Qed.

Lemma batches_from_length (provider : Provider) (last : Z) (n : nat) :
  forall first, length (batches_from n provider first last) = n.
Proof.
  induction n as [| n IH]; intros first; cbn [batches_from length];
    [reflexivity | now rewrite IH].
Qed.

Lemma batches_from_nth (provider : Provider) (last : Z) (n : nat) :
  forall (k : nat) (first : Z),
    (k < n)%nat ->
    nth_error (batches_from n provider first last) k
    = Some (first + Z.of_nat k * batchSize provider,
            Z.min (batchSize provider)
                  (last - (first + Z.of_nat k * batchSize provider))).
Proof.
  induction n as [| n IH]; intros k first Hk; [lia |].
  destruct k as [| k]; cbn [batches_from nth_error].
  - f_equal. f_equal; [| f_equal]; lia.
  - rewrite IH by lia. f_equal. f_equal; [| f_equal]; lia.
Qed.

(** C5, refuted as stated. With the batch size 25000 and the highest
    content ID 60000 the plan is (0, 25000), (25000, 25000),
    (50000, 10000), and the content ID 60000 lies in none of the windows
    [[first, first + count)]: the windows do not cover the highest content
    ID. *)
Lemma plan_leaves_highest_out :
  plan 4 (NewProvider 100) 60000
  = Some (Ok [(0, 25000); (25000, 25000); (50000, 10000)])
  /\ ~ exists batch,
         In batch [(0, 25000); (25000, 25000); (50000, 10000)]
         /\ in_window 60000 batch.
Proof.
  split; [reflexivity |].
  intros (batch & Hin & Hwin). unfold in_window in Hwin.
  destruct Hin as [<- | [<- | [<- | []]]]; cbn [fst snd] in Hwin; lia.
Qed.

(** C5, amended. The batches the loop visits depend on the highest content
    ID and the batch size only: with enough fuel the loop ends with the
    same list. Batch [k] starts at [k * batchSize], there is one for every
    multiple of the batch size up to the highest content ID, and its count
    is the smaller of the batch size and the distance to the highest content
    ID. Read as [[first, first + count)], the windows tile the content IDs
    below the highest: each of them lies in one window and in one only.
    With the batch size 25000 of [NewProvider] and the highest content ID
    60000 the batches are (0, 25000), (25000, 25000), (50000, 10000). *)
Theorem plan_is_the_batches (provider : Provider) (highest : Z) :
  0 < batchSize provider ->
  0 <= highest ->
  highest + batchSize provider < 2 ^ 64 ->
  let w := batchSize provider in
  let n := S (Z.to_nat (highest / w)) in
  exists bs,
    (forall fuel, (n < fuel)%nat -> plan fuel provider highest = Some (Ok bs))
    /\ length bs = n
    /\ (forall k, (k < n)%nat ->
          nth_error bs k
          = Some (Z.of_nat k * w, Z.min w (highest - Z.of_nat k * w)))
    /\ (forall c, 0 <= c < highest ->
          exists batch, In batch bs /\ in_window c batch)
    /\ (forall c b1 b2,
          In b1 bs -> In b2 bs -> in_window c b1 -> in_window c b2 ->
          b1 = b2)
    /\ (forall interval,
          plan 4 (NewProvider interval) 60000
          = Some (Ok [(0, 25000); (25000, 25000); (50000, 10000)])).
Proof.
  intros Hw Hhighest Hmax w n.
  assert (Hleft : batches_left provider 0 highest = n).
  { unfold batches_left. destruct (Z.leb_spec 0 highest); [| lia].
    now rewrite Z.sub_0_r. }
  assert (Hlen : length (batches provider highest) = n).
  { unfold batches. now rewrite batches_from_length. }
  assert (Hnth : forall k, (k < n)%nat ->
            nth_error (batches provider highest) k
            = Some (Z.of_nat k * w, Z.min w (highest - Z.of_nat k * w))).
  { intros k Hk. unfold batches. rewrite Hleft.
    rewrite batches_from_nth by assumption. reflexivity. }
  exists (batches provider highest).
  split; [| split; [| split; [| split; [| split]]]].
  - intros fuel Hfuel. apply plan_batches; try assumption. now rewrite Hleft.
  - exact Hlen.
  - exact Hnth.
  - intros c Hc.
    assert (Hk : (Z.to_nat (c / w) < n)%nat).
    { assert (c / w <= highest / w) by (apply Z.div_le_mono; lia).
      assert (0 <= c / w) by (apply Z.div_pos; lia). subst n. lia. }
    specialize (Hnth _ Hk). apply nth_error_In in Hnth.
    rewrite Z2Nat.id in Hnth by (apply Z.div_pos; lia).
    eexists. split; [exact Hnth |]. unfold in_window. cbn [fst snd].
    pose proof (Z.div_mod c w ltac:(lia)).
    pose proof (Z.mod_pos_bound c w Hw). lia.
  - intros c b1 b2 Hb1 Hb2 Hc1 Hc2. unfold in_window in Hc1, Hc2.
    pose proof Hb1 as Hb1'. pose proof Hb2 as Hb2'.
    apply In_nth_error in Hb1'. destruct Hb1' as [k1 Hk1].
    apply In_nth_error in Hb2'. destruct Hb2' as [k2 Hk2].
    assert (Hlt1 : (k1 < n)%nat)
      by (rewrite <- Hlen; apply nth_error_Some; congruence).
    assert (Hlt2 : (k2 < n)%nat)
      by (rewrite <- Hlen; apply nth_error_Some; congruence).
    rewrite (Hnth k1 Hlt1) in Hk1. rewrite (Hnth k2 Hlt2) in Hk2.
    injection Hk1 as <-. injection Hk2 as <-. cbn [fst snd] in Hc1, Hc2.
    assert (Heq : Z.of_nat k1 = Z.of_nat k2) by nia.
    now rewrite Heq.
  - intros interval. reflexivity.
Qed.

Lemma plan_is_the_batches_witness :
  exists bs,
    plan 4 (NewProvider 100) 60000 = Some (Ok bs)
    /\ nth_error bs 2 = Some (50000, 10000)
    /\ length bs = 3%nat.
Proof.
  destruct (plan_is_the_batches (NewProvider 100) 60000
              ltac:(simpl; lia) ltac:(lia) ltac:(simpl; lia))
    as (bs & Hplan & Hlen & Hnth & _).
  exists bs. split; [apply (Hplan 4%nat); simpl; lia |].
  split; [apply (Hnth 2%nat); simpl; lia | exact Hlen].
Defined.

(** ** A tick over a converged ledger *)

Section Converged.
Context `{PeerLib}.

(** A batch whose row has the planned count: whatever the database answers
    to the lookup, no call is made and the ledger is left as it is. *)
Lemma advertise_batch_same_count (provider : Provider) (engine : Engine)
  (database : Database) (autoretrieve : Autoretrieve) (addrInfo : AddrInfo)
  (first cnt : Z) (st : State) (row : PublishedBatch)
  (rest : list PublishedBatch) :
  db_Where (published_batches st) (Handle autoretrieve) first = row :: rest ->
  Count row = cnt ->
  exists st',
    advertise_batch provider engine database autoretrieve addrInfo first cnt
      st = Ok st'
    /\ published_batches st' = published_batches st
    /\ next_id st' = next_id st
    /\ calls st' = calls st.
Proof.
  intros Hfound Hcount. run_batch.
  destruct (database (queries st) (Where (Handle autoretrieve) first));
    cbn [negb].
  - rewrite Hfound, Hcount, Z.eqb_refl. eexists. repeat split.
  - eexists. repeat split.
Qed.

(** In a ledger with one row per pair, the query finds the row of a pair
    first. *)
Lemma db_Where_finds (rows : list PublishedBatch) (row : PublishedBatch) :
  one_row_per_pair rows ->
  In row rows ->
  exists rest,
    db_Where rows (AutoretrieveHandle row) (FirstContentID row) = row :: rest.
Proof.
  intros Hone Hin.
  assert (Hfound : In row (db_Where rows (AutoretrieveHandle row)
                             (FirstContentID row)))
    by (apply db_Where_In; tauto).
  destruct (db_Where rows (AutoretrieveHandle row) (FirstContentID row))
    as [| r rest] eqn:Hwhere; [contradiction |].
  assert (Hr : In r (db_Where rows (AutoretrieveHandle row)
                       (FirstContentID row)))
    by (rewrite Hwhere; now left).
  apply db_Where_In in Hr. destruct Hr as (Hrin & Hhandle & Hfirst).
  rewrite (Hone r row Hrin Hin Hhandle Hfirst). eexists. reflexivity.
Qed.

Lemma run_batches_advertised (provider : Provider) (engine : Engine)
  (database : Database) (autoretrieve : Autoretrieve) (addrInfo : AddrInfo)
  (bs : list (Z * Z)) :
  forall st,
    one_row_per_pair (published_batches st) ->
    advertised (published_batches st) autoretrieve bs ->
    exists st',
      run_batches
        (advertise_batch provider engine database autoretrieve addrInfo)
        bs st = Ok st'
      /\ published_batches st' = published_batches st
      /\ next_id st' = next_id st
      /\ calls st' = calls st.
Proof.
  induction bs as [| [first cnt] bs IH]; intros st Hone Hadv;
    [exists st; repeat split |].
  cbn [run_batches].
  destruct (Hadv first cnt ltac:(now left))
    as (row & Hin & Hhandle & Hfirst & Hcount).
  destruct (db_Where_finds _ row Hone Hin) as [rest Hfound].
  rewrite Hhandle, Hfirst in Hfound.
  destruct (advertise_batch_same_count provider engine database autoretrieve
              addrInfo first cnt st row rest Hfound Hcount)
    as (s1 & -> & Hrows1 & Hnext1 & Hcalls1).
  cbn [bind]. destruct (IH s1) as (st' & Hrun & Hrows & Hnext & Hcalls).
  - now rewrite Hrows1.
  - rewrite Hrows1. intros f c Hfc. apply Hadv. now right.
  - exists st'. split; [exact Hrun |]. repeat split; congruence.
Qed.

Lemma advertise_autoretrieves_advertised (fuel : nat) (provider : Provider)
  (engine : Engine) (database : Database) (highest : Z)
  (autoretrieves : list (Z * Autoretrieve)) :
  0 < batchSize provider ->
  0 <= highest ->
  highest + batchSize provider < 2 ^ 64 ->
  (batches_left provider 0 highest < fuel)%nat ->
  forall st,
    one_row_per_pair (published_batches st) ->
    (forall now a, In (now, a) autoretrieves ->
                   offline provider now a = false ->
                   advertised (published_batches st) a
                     (batches provider highest)) ->
    exists st',
      advertise_autoretrieves fuel provider engine database highest
        autoretrieves st = Some (Ok st')
      /\ published_batches st' = published_batches st
      /\ next_id st' = next_id st
      /\ calls st' = calls st.
Proof.
  intros Hw Hhighest Hmax Hfuel.
  induction autoretrieves as [| [now a] rest IH]; intros st Hone Hadv.
  - exists st. repeat split.
  - cbn [advertise_autoretrieves]. unfold advertise_autoretrieve.
    assert (Hrest : forall st0,
              published_batches st0 = published_batches st ->
              next_id st0 = next_id st ->
              calls st0 = calls st ->
              exists st',
                advertise_autoretrieves fuel provider engine database
                  highest rest st0 = Some (Ok st')
                /\ published_batches st' = published_batches st
                /\ next_id st' = next_id st
                /\ calls st' = calls st).
    { intros st0 Hrows Hnext Hcalls.
      destruct (IH st0) as (st' & Hrun & Hrows' & Hnext' & Hcalls').
      - now rewrite Hrows.
      - intros now' a' Ha' Hon. rewrite Hrows.
        apply (Hadv now' a'); [now right | exact Hon].
      - exists st'. repeat split; congruence. }
    destruct (offline provider now a) eqn:Hoff; [now apply Hrest |].
    destruct (Autoretrieve_AddrInfo a) as [addrInfo |];
      [| now apply Hrest].
    rewrite (batch_loop_run _ provider highest Hw Hmax
               (batches_left provider 0 highest) fuel 0 st)
      by (reflexivity || lia).
    fold (batches provider highest).
    destruct (run_batches_advertised provider engine database a addrInfo
                (batches provider highest) st Hone)
      as (s1 & -> & Hrows1 & Hnext1 & Hcalls1).
    + apply (Hadv now a); [now left | exact Hoff].
    + now apply Hrest.
Qed.

End Converged.

(** C7. When the ledger holds one row per autoretrieve and first content
    ID and, for every autoretrieve that is online at its turn and every
    planned batch, the row with the planned count, a tick ends, makes no
    call on the engine and leaves the ledger as it was, whatever the
    database answers to its lookups; so a second tick on an unchanged
    catalog does nothing. *)
Theorem converged_tick_does_nothing `{PeerLib}
  (fuel : nat) (provider : Provider) (engine : Engine)
  (database : Database) (clock : nat -> Z) (highest : Z)
  (autoretrieves : list Autoretrieve) (st : State) :
  0 < batchSize provider ->
  0 <= highest ->
  highest + batchSize provider < 2 ^ 64 ->
  (S (Z.to_nat (highest / batchSize provider)) < fuel)%nat ->
  one_row_per_pair (published_batches st) ->
  (forall now a first cnt,
      In (now, a) (turns clock autoretrieves) ->
      offline provider now a = false ->
      In (first, cnt) (batches provider highest) ->
      exists row,
        In row (published_batches st)
        /\ AutoretrieveHandle row = Handle a
        /\ FirstContentID row = first
        /\ Count row = cnt) ->
  exists st',
    tick fuel provider engine database clock (Found highest)
      (Found autoretrieves) st = Some (Ok st')
    /\ published_batches st' = published_batches st
    /\ calls st' = calls st
    /\ exists st'',
         tick fuel provider engine database clock (Found highest)
           (Found autoretrieves) st' = Some (Ok st'')
         /\ published_batches st'' = published_batches st
         /\ calls st'' = calls st.
Proof.
  intros Hw Hhighest Hmax Hfuel Hone Hadv. cbn [tick].
  assert (Hleft : (batches_left provider 0 highest < fuel)%nat).
  { unfold batches_left. destruct (Z.leb_spec 0 highest); [| lia].
    now rewrite Z.sub_0_r. }
  destruct (advertise_autoretrieves_advertised fuel provider engine database
              highest (turns clock autoretrieves) Hw Hhighest Hmax Hleft
              st Hone)
    as (st' & Hrun & Hrows & _ & Hcalls).
  { intros now a Ha Hon first cnt Hin. now apply (Hadv now a first cnt). }
  destruct (advertise_autoretrieves_advertised fuel provider engine database
              highest (turns clock autoretrieves) Hw Hhighest Hmax Hleft st')
    as (st'' & Hrun' & Hrows' & _ & Hcalls').
  { now rewrite Hrows. }
  { intros now a Ha Hon first cnt Hin. rewrite Hrows.
    now apply (Hadv now a first cnt). }
  exists st'. split; [exact Hrun |]. split; [exact Hrows |].
  split; [exact Hcalls |].
  exists st''. split; [exact Hrun' |]. split; congruence.
Qed.

Lemma converged_tick_does_nothing_witness :
  let row first cnt :=
    {| ID := first; FirstContentID := first; Count := cnt;
       AutoretrieveHandle := "A" |} in
  let st := Example.state_of
              [row 0 25000; row 25000 25000; row 50000 10000] 50001 in
  exists st',
    tick 5 (NewProvider 100) Example.reliable Example.sound
      (Example.at_time 50) (Found 60000)
      (Found [Example.node "A" "/a" 0; Example.node "B" "/b" (-1000)])
      st = Some (Ok st')
    /\ published_batches st' = published_batches st
    /\ calls st' = [].
Proof.
  intros row st.
  destruct (converged_tick_does_nothing (H := Example.peer)
              5 (NewProvider 100) Example.reliable Example.sound
              (Example.at_time 50) 60000
              [Example.node "A" "/a" 0; Example.node "B" "/b" (-1000)] st)
    as (st' & Hrun & Hrows & Hcalls & _).
  - simpl; lia.
  - lia.
  - simpl; lia.
  - vm_compute. lia.
  - intros r1 r2 H1 H2 _ Hfirst. simpl in H1, H2.
    destruct H1 as [<- | [<- | [<- | []]]];
      destruct H2 as [<- | [<- | [<- | []]]];
      simpl in Hfirst; try reflexivity; discriminate.
  - intros now a first cnt Ha Hon Hin.
    destruct Ha as [Ha | [Ha | []]]; injection Ha as <- <-;
      [| discriminate].
    vm_compute in Hin.
    destruct Hin as [Hin | [Hin | [Hin | []]]];
      injection Hin as <- <-.
    + exists (row 0 25000). simpl. tauto.
    + exists (row 25000 25000). simpl. tauto.
    + exists (row 50000 10000). simpl. tauto.
  - exists st'. split; [exact Hrun |]. split; [exact Hrows | exact Hcalls].
Defined.

(** ** The uniqueness constraint of the ledger *)

(** A row is refused as soon as some row has its first content ID, whatever
    the handles of the two rows. *)
Lemma db_Create_refuses_same_first (rows : list PublishedBatch) (next : Z)
  (row r : PublishedBatch) :
  In r rows ->
  FirstContentID r = FirstContentID row ->
  db_Create rows next row = None.
Proof.
  intros Hin Hfirst. unfold db_Create.
  assert (Hex : existsb (fun r0 => FirstContentID r0 =? FirstContentID row)
                  rows = true).
  { apply existsb_exists. exists r. split; [exact Hin |].
    now apply Z.eqb_eq. }
  now rewrite Hex.
Qed.

(** [db_Create] keeps the first content IDs of the ledger distinct. *)
Lemma db_Create_one_row_per_first (rows rows' : list PublishedBatch)
  (next : Z) (row : PublishedBatch) :
  one_row_per_first rows ->
  db_Create rows next row = Some rows' ->
  one_row_per_first rows'.
Proof.
  unfold one_row_per_first, db_Create. intros Hnodup.
  destruct (existsb _ rows) eqn:Hex; [discriminate |].
  intros Hrows. injection Hrows as <-.
  rewrite map_app. cbn [map FirstContentID].
  apply NoDup_app; [exact Hnodup | repeat constructor; intros [] |].
  intros first Hin [<- | []].
  apply in_map_iff in Hin. destruct Hin as (r & Hfirst & Hin).
  assert (Hfalse : existsb
                     (fun r0 => FirstContentID r0 =? FirstContentID row)
                     rows = true).
  { apply existsb_exists. exists r. split; [exact Hin |].
    now apply Z.eqb_eq. }
  congruence.
Qed.

Lemma NoDup_map_inj {A B : Type} (f : A -> B) (l : list A) :
  NoDup (map f l) ->
  forall a b, In a l -> In b l -> f a = f b -> a = b.
Proof.
  induction l as [| x l IH]; intros Hnodup a b Ha Hb Hf; [contradiction |].
  cbn [map] in Hnodup. apply NoDup_cons_iff in Hnodup.
  destruct Hnodup as [Hnotin Hnodup].
  destruct Ha as [<- | Ha], Hb as [<- | Hb].
  - reflexivity.
  - exfalso. apply Hnotin. rewrite Hf. now apply in_map.
  - exfalso. apply Hnotin. rewrite <- Hf. now apply in_map.
  - now apply IH.
Qed.

(** Distinct first content IDs give one row per pair. *)
Lemma one_row_per_first_pair (rows : list PublishedBatch) :
  one_row_per_first rows -> one_row_per_pair rows.
Proof.
  intros Hnodup r1 r2 H1 H2 _ Hfirst.
  exact (NoDup_map_inj FirstContentID rows Hnodup r1 r2 H1 H2 Hfirst).
Qed.

(** [db_Save] of a row of the table with a new count changes no other
    column. *)
Lemma db_Save_map {B : Type} (g : PublishedBatch -> B)
  (rows : list PublishedBatch) (row : PublishedBatch) (cnt : Z) :
  g (set_Count row cnt) = g row ->
  NoDup (map ID rows) ->
  In row rows ->
  map g (db_Save rows (set_Count row cnt)) = map g rows.
Proof.
  intros Hg Hnodup Hin. unfold db_Save. rewrite map_map.
  apply map_ext_in. intros r Hr. cbn [ID set_Count].
  destruct (Z.eqb_spec (ID r) (ID row)) as [Hid | _]; [| reflexivity].
  rewrite (NoDup_map_inj ID rows Hnodup r row Hr Hin Hid). exact Hg.
Qed.

Section LedgerInvariant.
Context `{PeerLib}.

Lemma ledger_ok_same (s s' : State) :
  published_batches s' = published_batches s ->
  next_id s' = next_id s ->
  ledger_ok s -> ledger_ok s'.
Proof. unfold ledger_ok. now intros -> ->. Qed.

Lemma advertise_batch_ledger_ok (provider : Provider) (engine : Engine)
  (database : Database) (autoretrieve : Autoretrieve) (addrInfo : AddrInfo)
  (first cnt : Z) (st st' : State) :
  ledger_ok st ->
  advertise_batch provider engine database autoretrieve addrInfo first cnt st
  = Ok st' ->
  ledger_ok st'.
Proof.
  intros Hok. pose proof Hok as (Hfirst & Hid & Hbelow). run_batch.
  destruct (database (queries st) (Where (Handle autoretrieve) first));
    cbn [negb];
    [| intros Heq; injection Heq as <-; exact Hok].
  destruct (db_Where (published_batches st) (Handle autoretrieve) first)
    as [| row rest] eqn:Hfound.
  - destruct (makeContextID _) as [contextID | m | m]; [| | discriminate];
      [| intros Heq; injection Heq as <-; exact Hok].
    destruct (engine (calls st) _);
      [| intros Heq; injection Heq as <-; exact Hok].
    destruct (database (queries st ++ _) _);
      [| intros Heq; injection Heq as <-; exact Hok].
    destruct (db_Create (published_batches st) (next_id st) _) as [rows |]
      eqn:Hcreate; intros Heq; injection Heq as <-; [| exact Hok].
    pose proof (db_Create_one_row_per_first _ _ _ _ Hfirst Hcreate)
      as Hfirst'.
    unfold db_Create in Hcreate.
    destruct (existsb _ _); [discriminate |]. injection Hcreate as <-.
    split; [exact Hfirst' |]. cbn [set_batches published_batches next_id].
    split.
    + rewrite map_app. cbn [map ID].
      apply NoDup_app; [exact Hid | repeat constructor; intros [] |].
      intros id Hin [<- | []]. apply in_map_iff in Hin.
      destruct Hin as (r & Hr & Hin).
      rewrite Forall_forall in Hbelow. specialize (Hbelow r Hin). lia.
    + apply Forall_app. split.
      * eapply Forall_impl; [| exact Hbelow]. cbn beta. intros; lia.
      * repeat constructor. cbn [ID]. lia.
  - assert (Hin : In row (published_batches st)).
    { assert (Hw : In row (db_Where (published_batches st)
                             (Handle autoretrieve) first))
        by (rewrite Hfound; now left).
      apply db_Where_In in Hw. tauto. }
    destruct (Count row =? cnt);
      [intros Heq; injection Heq as <-; exact Hok |].
    destruct (makeContextID _) as [contextID | m | m]; [| | discriminate];
      cbn [negb]; [| intros Heq; injection Heq as <-; exact Hok].
    destruct (engine (calls st) _);
      cbn [record_query record_call log_line set_batches published_batches
           next_id calls queries logs];
      (destruct (engine _ _);
       [| intros Heq; injection Heq as <-; exact Hok]);
      (destruct (database _ _);
       [| intros Heq; injection Heq as <-; exact Hok]);
      intros Heq; injection Heq as <-;
      unfold ledger_ok, one_row_per_first;
      cbn [set_batches published_batches next_id];
      rewrite !db_Save_map by (reflexivity || assumption);
      (split; [exact Hfirst |]); (split; [exact Hid |]);
      apply Forall_forall; intros r Hr; unfold db_Save in Hr;
      apply in_map_iff in Hr; destruct Hr as (r0 & <- & Hr0);
      rewrite Forall_forall in Hbelow;
      cbn [ID set_Count]; destruct (ID r0 =? ID row); cbn [ID set_Count];
      now apply Hbelow.
Qed.

Lemma batch_loop_ledger_ok (provider : Provider) (engine : Engine)
  (database : Database) (autoretrieve : Autoretrieve) (addrInfo : AddrInfo)
  (last : Z) (fuel : nat) :
  forall (first : Z) (st st' : State),
    ledger_ok st ->
    batch_loop fuel provider
      (advertise_batch provider engine database autoretrieve addrInfo)
      first last st
    = Some (Ok st') ->
    ledger_ok st'.
Proof.
  induction fuel as [| fuel IH]; intros first st st' Hok; [discriminate |].
  cbn [batch_loop]. destruct (first <=? last).
  - destruct (advertise_batch _ _ _ _ _ _ _ _) as [st1 | m | m] eqn:Hbody;
      [| discriminate | discriminate].
    apply IH.
    now apply (advertise_batch_ledger_ok _ _ _ _ _ _ _ _ _ Hok Hbody).
  - intros Heq. injection Heq as <-. exact Hok.
Qed.

(** In every state a tick reaches from a state that satisfies the
    invariant, the invariant holds; in particular the ledger has at most one
    row per first content ID, hence at most one per pair. *)
Lemma tick_ledger_ok (fuel : nat) (provider : Provider) (engine : Engine)
  (database : Database) (clock : nat -> Z) (lastContent : fetched Z)
  (autoretrieves : fetched (list Autoretrieve)) (st st' : State) :
  ledger_ok st ->
  tick fuel provider engine database clock lastContent autoretrieves st
  = Some (Ok st') ->
  ledger_ok st' /\ one_row_per_pair (published_batches st').
Proof.
  intros Hok Htick.
  enough (Hok' : ledger_ok st').
  { split; [exact Hok' |]. apply one_row_per_first_pair. apply Hok'. }
  assert (Hlog : forall s l m, ledger_ok s -> ledger_ok (log_line s l m))
    by (intros s l m Hs; exact Hs).
  unfold tick in Htick.
  destruct lastContent as [last | |];
    [| injection Htick as <-; exact Hok
     | injection Htick as <-; now apply Hlog].
  destruct autoretrieves as [ars | |];
    [| injection Htick as <-; now apply Hlog
     | injection Htick as <-; now apply Hlog].
  revert st Hok Htick. generalize (turns clock ars). intros ts.
  induction ts as [| [now a] ts IH]; intros st Hok;
    cbn [advertise_autoretrieves].
  - intros Heq. injection Heq as <-. exact Hok.
  - destruct (advertise_autoretrieve fuel provider engine database last
                (now, a) st)
      as [[st1 | m | m] |] eqn:Ha; try discriminate.
    apply IH. unfold advertise_autoretrieve in Ha.
    destruct (offline provider now a); [injection Ha as <-; exact Hok |].
    destruct (Autoretrieve_AddrInfo a) as [addrInfo |].
    + now apply (batch_loop_ledger_ok _ _ _ _ _ _ _ _ _ _ Hok Ha).
    + injection Ha as <-. now apply Hlog.
Qed.

End LedgerInvariant.

(** C3, as the code has it. Two online autoretrieves and a catalog of one
    batch: the tick publishes the batch for both, writes the row of the
    first, and the row of the second is refused by the constraint on the
    first content ID alone. The ledger never holds a row for the second
    autoretrieve, and the next tick publishes its batch again. *)
Theorem row_of_second_autoretrieve_is_refused :
  let a := Example.node "A" "/a" 0 in
  let b := Example.node "B" "/b" 0 in
  exists st1 st2,
    tick 3 (NewProvider 100) Example.reliable Example.sound
      (Example.at_time 50) (Found 10) (Found [a; b])
      Example.empty_state = Some (Ok st1)
    /\ published_batches st1
       = [{| ID := 1; FirstContentID := 0; Count := 10;
             AutoretrieveHandle := "A" |}]
    /\ db_Where (published_batches st1) "B" 0 = []
    /\ logs st1 = [(Error, "Failed to write batch to database"%string)]
    /\ length (calls st1) = 2%nat
    /\ tick 3 (NewProvider 100) Example.reliable Example.sound
         (Example.at_time 50) (Found 10) (Found [a; b]) st1 = Some (Ok st2)
    /\ published_batches st2 = published_batches st1
    /\ length (calls st2) = 3%nat.
Proof.
  intros a b. eexists. eexists.
  split; [vm_compute; reflexivity |].
  split; [reflexivity |]. split; [reflexivity |]. split; [reflexivity |].
  split; [reflexivity |].
  split; [vm_compute; reflexivity |].
  split; reflexivity.
Qed.

(** ** The multihash iterator *)

(** The rows of the query: the CID of every object with a reference whose
    content lies between the two bounds, both included. *)
Lemma select_cids_In (db : Catalog) (lo hi : Z) (cidString : string) :
  In cidString (select_cids db lo hi) <->
  exists o r,
    In o (objects db) /\ In r (obj_refs db)
    /\ ref_object r = object_id o
    /\ lo <= ref_content r <= hi
    /\ cidString = object_cid o.
Proof.
  unfold select_cids, BETWEEN. rewrite in_flat_map. split.
  - intros (o & Ho & Hin). apply in_map_iff in Hin.
    destruct Hin as (r & Hcid & Hr). apply filter_In in Hr.
    destruct Hr as [Hr Hcond].
    rewrite !andb_true_iff, Z.eqb_eq, !Z.leb_le in Hcond.
    exists o, r. intuition.
  - intros (o & r & Ho & Hr & Hobj & Hrange & ->).
    exists o. split; [exact Ho |]. apply in_map_iff. exists r.
    split; [reflexivity |]. apply filter_In. split; [exact Hr |].
    rewrite !andb_true_iff, Z.eqb_eq, !Z.leb_le. intuition.
Qed.

Lemma fold_parse_step `{CidLib} (cidStrings : list string) :
  forall mhs warnings,
    fold_left parse_step cidStrings (mhs, warnings)
    = (mhs ++ parsed_hashes cidStrings,
       warnings ++ parse_warnings cidStrings).
Proof.
  unfold parse_warnings.
  induction cidStrings as [| s l IH]; intros mhs warnings;
    cbn [fold_left parsed_hashes flat_map filter map].
  - now rewrite !app_nil_r.
  - unfold parse_step at 2. unfold parses at 1.
    destruct (CidFromBytes (bytes_of_string s)) as [[n c] |];
      cbn [negb map]; rewrite IH, <- !app_assoc; reflexivity.
Qed.

(** [NewIterator] by the answer of the query. *)
Lemma NewIterator_by_rows `{CidLib} (db : Catalog) (first cnt : Z) :
  NewIterator db first cnt
  = match db_Raw_Scan db first (uint (first + cnt)) with
    | Panic m => (Panic m, [])
    | Err e => (Err e, [])
    | Ok [] => (Err "no multihashes for this content", [])
    | Ok cidStrings =>
        (Ok {| mhs := parsed_hashes cidStrings;
               index := 0;
               iter_firstContentID := first;
               iter_count := cnt |},
         parse_warnings cidStrings)
    end.
Proof.
  unfold NewIterator.
  destruct (db_Raw_Scan db first (uint (first + cnt))) as [[| s l] | e | m];
    try reflexivity.
  cbn [length Nat.eqb]. now rewrite fold_parse_step.
Qed.

Lemma db_Raw_Scan_Ok (db : Catalog) (lo hi : Z) (rows : list string) :
  db_Raw_Scan db lo hi = Ok rows ->
  rows = select_cids db lo hi /\ lo < 2 ^ 63 /\ hi < 2 ^ 63.
Proof.
  unfold db_Raw_Scan.
  destruct (Z.ltb_spec lo (2 ^ 63)); destruct (Z.ltb_spec hi (2 ^ 63));
    cbn [andb]; try discriminate.
  destruct (query_error db); [discriminate |].
  intros Heq. injection Heq as <-. tauto.
Qed.

(** C4, as the code has it. The query takes the content IDs between
    [first] and [first + count] with both ends included: a content whose ID
    is [first + count] gives its hash to the iterator of the batch. *)
Theorem NewIterator_takes_the_upper_end `{CidLib}
  (first cnt : Z) (cidString : string) (n : nat) (c : Cid)
  (range_error : string) :
  0 <= first ->
  0 <= cnt ->
  first + cnt < 2 ^ 63 ->
  CidFromBytes (bytes_of_string cidString) = Some (n, c) ->
  NewIterator
    {| objects := [{| object_id := 1; object_cid := cidString |}];
       obj_refs := [{| ref_content := first + cnt; ref_object := 1 |}];
       query_error := None;
       range_error := range_error |}
    first cnt
  = (Ok {| mhs := [Hash c];
           index := 0;
           iter_firstContentID := first;
           iter_count := cnt |},
     []).
Proof.
  intros Hfirst Hcnt Hmax Hparse. rewrite NewIterator_by_rows.
  unfold db_Raw_Scan, select_cids, BETWEEN.
  cbn [objects obj_refs query_error flat_map filter ref_object object_id
       ref_content].
  rewrite uint_small by lia.
  destruct (Z.ltb_spec first (2 ^ 63)); [| lia].
  destruct (Z.ltb_spec (first + cnt) (2 ^ 63)); [| lia].
  destruct (Z.leb_spec first (first + cnt)); [| lia].
  rewrite Z.leb_refl.
  cbn [Z.eqb Pos.eqb andb map app object_cid].
  unfold parsed_hashes, parse_warnings, parses.
  cbn [flat_map filter map]. rewrite Hparse. reflexivity.
Qed.

Lemma NewIterator_takes_the_upper_end_witness :
  exists mh,
    NewIterator (H := Example.cid)
      (Example.catalog
         [{| object_id := 1; object_cid := Example.cidv0 |}]
         [{| ref_content := 0 + 25000; ref_object := 1 |}])
      0 25000
    = (Ok {| mhs := [mh]; index := 0;
             iter_firstContentID := 0; iter_count := 25000 |},
       []).
Proof.
  eexists.
  apply (NewIterator_takes_the_upper_end (H := Example.cid)
           0 25000 Example.cidv0 34%nat);
    [lia | lia | simpl; lia | reflexivity].
Defined.




(** * Further properties of the code *)

(** ** The codec on arbitrary bytes *)

Lemma lor_below_pow2 (a b n : Z) :
  0 <= n -> 0 <= a < 2 ^ n -> 0 <= b < 2 ^ n -> 0 <= Z.lor a b < 2 ^ n.
Proof.
  intros Hn Ha Hb.
  assert (Hnonneg : 0 <= Z.lor a b) by (apply Z.lor_nonneg; lia).
  split; [exact Hnonneg |].
  destruct (Z.eq_dec (Z.lor a b) 0) as [-> | Hnz];
    [apply Z.pow_pos_nonneg; lia |].
  apply Z.log2_lt_pow2; [lia |].
  rewrite Z.log2_lor by lia.
  destruct (Z.eq_dec a 0) as [-> | Ha0], (Z.eq_dec b 0) as [-> | Hb0].
  - now rewrite Z.lor_0_l in Hnz.
  - rewrite Z.max_r by (apply Z.log2_nonneg). apply Z.log2_lt_pow2; lia.
  - rewrite Z.max_l by (apply Z.log2_nonneg). apply Z.log2_lt_pow2; lia.
  - apply Z.max_lub_lt; apply Z.log2_lt_pow2; lia.
Qed.

(** Whatever the four bytes, [Uint32] gives a value below 2^32. *)
Lemma Uint32_range (b0 b1 b2 b3 : Z) (rest : list Z) :
  exists v,
    BigEndian.Uint32 (b0 :: b1 :: b2 :: b3 :: rest) = Ok v
    /\ 0 <= v < 2 ^ 32.
Proof.
  eexists. split; [reflexivity |].
  repeat apply lor_below_pow2; try lia; apply uint32_range.
Qed.

(** On four bytes, [Uint32] and [bytes32] are inverse of each other. *)
Lemma bytes32_Uint32 (b0 b1 b2 b3 : Z) :
  0 <= b0 < 256 -> 0 <= b1 < 256 -> 0 <= b2 < 256 -> 0 <= b3 < 256 ->
  exists v,
    BigEndian.Uint32 [b0; b1; b2; b3] = Ok v
    /\ 0 <= v < 2 ^ 32
    /\ BigEndian.bytes32 v = [b0; b1; b2; b3].
Proof.
  intros H0 H1 H2 H3.
  exists (b3 + b2 * 2 ^ 8 + b1 * 2 ^ 16 + b0 * 2 ^ 24).
  split; [| split; [lia |]].
  - unfold BigEndian.Uint32, uint32. f_equal.
    rewrite !Z.shiftl_mul_pow2 by lia.
    rewrite !(Z.mod_small _ (2 ^ 32)) by lia.
    rewrite <- !Z.shiftl_mul_pow2 by lia.
    rewrite (lor_shiftl_add b3) by lia.
    rewrite (lor_shiftl_add (b3 + _)) by lia.
    rewrite (lor_shiftl_add (b3 + _ + _)) by lia.
    rewrite !Z.shiftl_mul_pow2 by lia. reflexivity.
  - unfold BigEndian.bytes32, byte.
    rewrite !Z.shiftr_div_pow2 by lia.
    repeat f_equal.
    + symmetry. apply Z.mod_unique_pos with (q := 0); [lia |].
      pose proof (Z.div_unique_pos
                    (b3 + b2 * 2 ^ 8 + b1 * 2 ^ 16 + b0 * 2 ^ 24) (2 ^ 24)
                    b0 (b3 + b2 * 2 ^ 8 + b1 * 2 ^ 16)
                    ltac:(lia) ltac:(lia)).
      lia.
    + symmetry. apply Z.mod_unique_pos with (q := b0); [lia |].
      pose proof (Z.div_unique_pos
                    (b3 + b2 * 2 ^ 8 + b1 * 2 ^ 16 + b0 * 2 ^ 24) (2 ^ 16)
                    (b1 + b0 * 2 ^ 8) (b3 + b2 * 2 ^ 8)
                    ltac:(lia) ltac:(lia)).
      lia.
    + symmetry. apply Z.mod_unique_pos with (q := b1 + b0 * 2 ^ 8); [lia |].
      pose proof (Z.div_unique_pos
                    (b3 + b2 * 2 ^ 8 + b1 * 2 ^ 16 + b0 * 2 ^ 24) (2 ^ 8)
                    (b2 + b1 * 2 ^ 8 + b0 * 2 ^ 16) b3
                    ltac:(lia) ltac:(lia)).
      lia.
    + symmetry.
      apply Z.mod_unique_pos
        with (q := b2 + b1 * 2 ^ 8 + b0 * 2 ^ 16); lia.
Qed.

(** A list of at least eight elements, cut as [readContextID] cuts it. *)
Lemma at_least_8 {A : Type} (l : list A) :
  (8 <= length l)%nat ->
  exists a0 a1 a2 a3 a4 a5 a6 a7 tail,
    l = a0 :: a1 :: a2 :: a3 :: a4 :: a5 :: a6 :: a7 :: tail.
Proof.
  intros Hlen.
  do 8 (destruct l as [| ? l]; [simpl in Hlen; lia |]).
  repeat eexists.
Qed.

Lemma readContextID_cons8 `{PeerLib} (a0 a1 a2 a3 a4 a5 a6 a7 : Z)
  (tail : list Z) :
  readContextID (a0 :: a1 :: a2 :: a3 :: a4 :: a5 :: a6 :: a7 :: tail)
  = match IDFromBytes tail with
    | None => Err "failed to read context peer ID"
    | Some peerID =>
        first <- BigEndian.Uint32 [a0; a1; a2; a3] ;;
        cnt <- BigEndian.Uint32 [a4; a5; a6; a7] ;;
        Ok {| provider := peerID;
              firstContentID := uint first;
              count := uint cnt |}
    end.
Proof.
  unfold readContextID, slice_from, slice.
  cbn [length Nat.leb andb bind skipn firstn Nat.sub].
  rewrite Nat.leb_refl. cbn [andb bind].
  replace (length tail - 0)%nat with (length tail) by lia.
  rewrite firstn_all. reflexivity.
Qed.

(** X1. On an input of eight bytes or more [readContextID] does not panic:
    it returns an error exactly when the bytes after the eighth do not
    parse as a peer ID, and otherwise the peer they parse to, with a first
    content ID and a count that are both below 2^32. *)
Theorem readContextID_long_input `{PeerLib} (contextID : list Z) :
  (8 <= length contextID)%nat ->
  match IDFromBytes (skipn 8 contextID) with
  | None =>
      readContextID contextID = Err "failed to read context peer ID"
  | Some peerID =>
      exists first cnt,
        readContextID contextID
        = Ok {| provider := peerID; firstContentID := first; count := cnt |}
        /\ 0 <= first < 2 ^ 32
        /\ 0 <= cnt < 2 ^ 32
  end.
Proof.
  intros Hlen.
  destruct (at_least_8 contextID Hlen)
    as (a0 & a1 & a2 & a3 & a4 & a5 & a6 & a7 & tail & ->).
  rewrite readContextID_cons8. cbn [skipn].
  destruct (IDFromBytes tail) as [peerID |]; [| reflexivity].
  destruct (Uint32_range a0 a1 a2 a3 []) as (first & -> & Hfirst).
  destruct (Uint32_range a4 a5 a6 a7 []) as (cnt & -> & Hcnt).
  exists first, cnt. cbn [bind]. rewrite !uint_small by lia. tauto.
Qed.

Lemma readContextID_long_input_witness :
  readContextID (H := Example.peer) [0; 0; 0; 5; 0; 0; 97; 168; 9; 9]
  = Err "failed to read context peer ID".
Proof.
  apply (readContextID_long_input (H := Example.peer)
           [0; 0; 0; 5; 0; 0; 97; 168; 9; 9]).
  simpl; lia.
Defined.

(** X2. Two valid triples with the same context ID are the same triple:
    batches that differ in their peer or in their first content ID never
    share a context ID. *)
Theorem makeContextID_injective `{PeerLib}
  (p1 p2 : contextParams) (b1 b2 contextID : list Z) :
  MarshalBinary (provider p1) = Some b1 ->
  IDFromBytes b1 = Some (provider p1) ->
  MarshalBinary (provider p2) = Some b2 ->
  IDFromBytes b2 = Some (provider p2) ->
  0 <= firstContentID p1 < 2 ^ 32 -> 0 <= count p1 < 2 ^ 32 ->
  0 <= firstContentID p2 < 2 ^ 32 -> 0 <= count p2 < 2 ^ 32 ->
  makeContextID p1 = Ok contextID ->
  makeContextID p2 = Ok contextID ->
  p1 = p2.
Proof.
  intros Hm1 Hp1 Hm2 Hp2 Hf1 Hc1 Hf2 Hc2 He1 He2.
  destruct p1 as [peer1 first1 cnt1], p2 as [peer2 first2 cnt2].
  cbn [provider firstContentID count] in *.
  pose proof (read_make peer1 first1 cnt1 b1 Hm1 Hp1) as Hr1.
  pose proof (read_make peer2 first2 cnt2 b2 Hm2 Hp2) as Hr2.
  rewrite He1 in Hr1. rewrite He2 in Hr2. cbn [bind] in Hr1, Hr2.
  rewrite Hr1 in Hr2. injection Hr2 as Hpeer Hfirst Hcnt.
  unfold uint32 in Hfirst, Hcnt.
  rewrite !Z.mod_small in Hfirst, Hcnt by assumption.
  now subst.
Qed.

Lemma makeContextID_injective_witness :
  {| provider := Example.peerA; firstContentID := 50000; count := 25000 |}
  = {| provider := Example.peerA; firstContentID := 50000; count := 25000 |}.
Proof.
  apply (makeContextID_injective (H := Example.peer)
           {| provider := Example.peerA;
              firstContentID := 50000;
              count := 25000 |}
           {| provider := Example.peerA;
              firstContentID := 50000;
              count := 25000 |}
           Example.peerA Example.peerA
           [0; 0; 195; 80; 0; 0; 97; 168; 0; 2; 47; 97]);
    try reflexivity; simpl; lia.
Defined.

(** X3. Reading a context ID and making one from what was read gives the
    bytes back, when the peer that the tail parses to serializes to that
    tail: on well-formed context IDs [makeContextID] is also the inverse of
    [readContextID]. *)
Theorem makeContextID_inverts_readContextID `{PeerLib}
  (contextID : list Z) (params : contextParams) :
  Forall (fun b => 0 <= b < 256) contextID ->
  readContextID contextID = Ok params ->
  MarshalBinary (provider params) = Some (skipn 8 contextID) ->
  makeContextID params = Ok contextID.
Proof.
  intros Hbytes Hread Hmarshal.
  assert (Hlen : (8 <= length contextID)%nat).
  { destruct (Nat.le_gt_cases 8 (length contextID)) as [Hle | Hlt];
      [exact Hle |].
    unfold readContextID, slice_from, slice in Hread.
    destruct (Nat.leb_spec 8 (length contextID)); [lia | discriminate]. }
  destruct (at_least_8 contextID Hlen)
    as (a0 & a1 & a2 & a3 & a4 & a5 & a6 & a7 & tail & ->).
  rewrite readContextID_cons8 in Hread. cbn [skipn] in Hmarshal.
  repeat match goal with
         | Hb : Forall _ (_ :: _) |- _ =>
             apply Forall_cons_iff in Hb; destruct Hb as [? Hb]
         end.
  destruct (IDFromBytes tail) as [peerID |]; [| discriminate].
  destruct (bytes32_Uint32 a0 a1 a2 a3) as (first & Hfirst & Hfr & Hfb);
    try assumption.
  destruct (bytes32_Uint32 a4 a5 a6 a7) as (cnt & Hcnt & Hcr & Hcb);
    try assumption.
  rewrite Hfirst, Hcnt in Hread. cbn [bind] in Hread.
  injection Hread as <-. rewrite makeContextID_layout.
  cbn [provider firstContentID count] in *. rewrite Hmarshal.
  rewrite !uint_small by lia. unfold uint32.
  rewrite !Z.mod_small by lia. rewrite Hfb, Hcb. reflexivity.
Qed.

Lemma makeContextID_inverts_readContextID_witness :
  makeContextID (H := Example.peer)
    {| provider := Example.peerA; firstContentID := 50000; count := 25000 |}
  = Ok [0; 0; 195; 80; 0; 0; 97; 168; 0; 2; 47; 97].
Proof.
  apply (makeContextID_inverts_readContextID (H := Example.peer)
           [0; 0; 195; 80; 0; 0; 97; 168; 0; 2; 47; 97]).
  - repeat constructor; lia.
  - reflexivity.
  - reflexivity.
Defined.

(** ** The iterator in use *)

Lemma skipn_nth_error {A : Type} (l : list A) :
  forall (i : nat) (a : A),
    nth_error l i = Some a -> skipn i l = a :: skipn (S i) l.
Proof.
  induction l as [| x l IH]; intros [| i] a Hnth; try discriminate.
  - injection Hnth as ->. reflexivity.
  - cbn [nth_error] in Hnth. cbn [skipn]. now apply IH.
Qed.

Section IteratorFacts.
Context `{CidLib}.

Lemma Next_in_range (iter : Iterator) (mh : Multihash) :
  0 <= index iter -> index iter + 1 < 2 ^ 64 ->
  nth_error (mhs iter) (Z.to_nat (index iter)) = Some mh ->
  Next iter = (Ok mh, at_index iter (index iter + 1)).
Proof.
  intros Hlo Hhi Hnth. unfold Next.
  assert (Hlt : (Z.to_nat (index iter) < length (mhs iter))%nat).
  { apply nth_error_Some. congruence. }
  destruct (Z.eqb_spec (index iter) (Z.of_nat (length (mhs iter))));
    [lia |].
  rewrite Hnth, uint_small by lia. reflexivity.
Qed.

Lemma Next_at_end (iter : Iterator) :
  index iter = Z.of_nat (length (mhs iter)) ->
  Next iter = (Err "EOF", iter).
Proof. intros Hend. unfold Next. now rewrite Hend, Z.eqb_refl. Qed.

Lemma at_index_same (iter : Iterator) : at_index iter (index iter) = iter.
Proof. now destruct iter. Qed.

Lemma Next_n_hashes (n : nat) :
  forall (iter : Iterator),
    0 <= index iter ->
    index iter + Z.of_nat n <= Z.of_nat (length (mhs iter)) ->
    Z.of_nat (length (mhs iter)) < 2 ^ 64 ->
    Next_n n iter
    = (map Ok (firstn n (skipn (Z.to_nat (index iter)) (mhs iter))),
       at_index iter (index iter + Z.of_nat n)).
Proof.
  induction n as [| n IH]; intros iter Hlo Hhi Hmax.
  - cbn [Next_n firstn map]. now rewrite Z.add_0_r, at_index_same.
  - cbn [Next_n].
    destruct (nth_error (mhs iter) (Z.to_nat (index iter))) as [mh |] eqn:Hnth.
    + rewrite (Next_in_range iter mh) by (assumption || lia).
      rewrite IH by (cbn [at_index index mhs]; lia).
      cbn [at_index index mhs iter_firstContentID iter_count].
      f_equal.
      * replace (Z.to_nat (index iter + 1))
          with (S (Z.to_nat (index iter))) by lia.
        rewrite (skipn_nth_error _ _ _ Hnth). reflexivity.
      * unfold at_index.
        cbn [index mhs iter_firstContentID iter_count]. f_equal. lia.
    + apply nth_error_None in Hnth. lia.
Qed.

End IteratorFacts.

(** X4. An iterator at index 0 gives its hashes in order, one per call of
    [Next]; the call after the last hash gives the end-of-sequence error,
    and so does every later call, with the iterator unchanged: the sequence
    cannot be restarted. *)
Theorem Next_gives_each_hash_then_EOF `{CidLib} (iter : Iterator) (k : nat) :
  index iter = 0 ->
  Z.of_nat (length (mhs iter)) < 2 ^ 64 ->
  let done := at_index iter (Z.of_nat (length (mhs iter))) in
  Next_n (length (mhs iter)) iter = (map Ok (mhs iter), done)
  /\ Next_n k done = (repeat (Err "EOF") k, done).
Proof.
  intros Hindex Hmax done. split.
  - rewrite Next_n_hashes by lia. rewrite Hindex. cbn [Z.to_nat skipn].
    rewrite firstn_all. reflexivity.
  - induction k as [| k IH]; [reflexivity |].
    cbn [Next_n]. rewrite Next_at_end by reflexivity.
    rewrite IH. reflexivity.
Qed.

Lemma Next_gives_each_hash_then_EOF_witness :
  let done := at_index Example.iterator 2 in
  Next_n 2 Example.iterator = (map Ok Example.hashes, done)
  /\ Next_n 3 done = ([Err "EOF"; Err "EOF"; Err "EOF"], done).
Proof.
  intros done.
  apply (Next_gives_each_hash_then_EOF (H := Example.cid)
           Example.iterator 3);
    [reflexivity | simpl; lia].
Defined.

Lemma parsed_hashes_In `{CidLib} (cidStrings : list string)
  (mh : Multihash) :
  In mh (parsed_hashes cidStrings) <->
  exists cidString n c,
    In cidString cidStrings
    /\ CidFromBytes (bytes_of_string cidString) = Some (n, c)
    /\ mh = Hash c.
Proof.
  unfold parsed_hashes. rewrite in_flat_map. split.
  - intros (s & Hs & Hin).
    destruct (CidFromBytes (bytes_of_string s)) as [[n c] |] eqn:Hparse;
      [| contradiction].
    destruct Hin as [<- | []]. now exists s, n, c.
  - intros (s & n & c & Hs & Hparse & ->). exists s.
    split; [exact Hs |]. rewrite Hparse. now left.
Qed.

(** X5. What an iterator holds. When [NewIterator] succeeds, a hash is in
    the iterator exactly when it is the hash of the CID, parsed from its
    string, of an object with a reference whose content ID lies between
    [first] and [first + count] (as a [uint]), both ends included. No hash
    of a content outside this range is ever served. *)
Theorem NewIterator_hashes `{CidLib}
  (db : Catalog) (first cnt : Z) (iter : Iterator) (mh : Multihash) :
  fst (NewIterator db first cnt) = Ok iter ->
  (In mh (mhs iter) <->
   exists o r n c,
     In o (objects db) /\ In r (obj_refs db)
     /\ ref_object r = object_id o
     /\ first <= ref_content r <= uint (first + cnt)
     /\ CidFromBytes (bytes_of_string (object_cid o)) = Some (n, c)
     /\ mh = Hash c).
Proof.
  rewrite NewIterator_by_rows.
  destruct (db_Raw_Scan db first (uint (first + cnt)))
    as [rows | e | m] eqn:Hscan; try discriminate.
  apply db_Raw_Scan_Ok in Hscan. destruct Hscan as (-> & _ & _).
  destruct (select_cids db first (uint (first + cnt))) as [| s l] eqn:Hsel;
    [discriminate |].
  cbn [fst]. intros Hiter. injection Hiter as <-. cbn [mhs].
  match goal with
  | |- In mh ?hs <-> ?R => change (In mh (parsed_hashes (s :: l)) <-> R)
  end.
  rewrite parsed_hashes_In, <- Hsel. split.
  - intros (s' & n & c & Hs & Hparse & ->).
    apply select_cids_In in Hs.
    destruct Hs as (o & r & Ho & Hr & Hobj & Hrange & ->).
    now exists o, r, n, c.
  - intros (o & r & n & c & Ho & Hr & Hobj & Hrange & Hparse & ->).
    exists (object_cid o), n, c. split; [| tauto].
    apply select_cids_In. now exists o, r.
Qed.

Lemma NewIterator_hashes_witness :
  let db := Example.catalog
              [{| object_id := 1; object_cid := Example.cidv0 |}]
              [{| ref_content := 7; ref_object := 1 |}] in
  exists iter,
    fst (NewIterator (H := Example.cid) db 0 10) = Ok iter
    /\ forall mh,
         In mh (mhs iter) ->
         exists o r n c,
           In o (objects db) /\ In r (obj_refs db)
           /\ ref_object r = object_id o
           /\ 0 <= ref_content r <= uint (0 + 10)
           /\ CidFromBytes (bytes_of_string (object_cid o)) = Some (n, c)
           /\ mh = Hash c.
Proof.
  intros db. eexists. split; [reflexivity |].
  intros mh.
  apply (NewIterator_hashes (H := Example.cid) db 0 10 _ mh eq_refl).
Defined.

(** X7. A pull request for a context ID the loop has minted. The lister
    builds the iterator of the batch that starts at the first content ID of
    the context ID, cut to 32 bits, with the count stored in it, also cut to
    32 bits: with the configured batch size in the context ID, the pull for
    a partial last batch resolves the whole batch. *)
Theorem MultihashLister_of_minted_contextID `{PeerLib} `{CidLib}
  (db : Catalog) (params : contextParams) (peerIDBytes contextID : list Z) :
  MarshalBinary (provider params) = Some peerIDBytes ->
  IDFromBytes peerIDBytes = Some (provider params) ->
  makeContextID params = Ok contextID ->
  MultihashLister db contextID
  = NewIterator db (firstContentID params mod 2 ^ 32)
      (count params mod 2 ^ 32).
Proof.
  intros Hmarshal Hparse Hmake. destruct params as [peerID first cnt].
  cbn [provider firstContentID count] in *.
  pose proof (read_make peerID first cnt peerIDBytes Hmarshal Hparse) as Hread.
  rewrite Hmake in Hread. cbn [bind] in Hread.
  unfold MultihashLister. rewrite Hread. reflexivity.
Qed.

Lemma MultihashLister_of_minted_contextID_witness :
  let db := Example.catalog
              [{| object_id := 1; object_cid := Example.cidv0 |}]
              [{| ref_content := 60000; ref_object := 1 |}] in
  MultihashLister (H := Example.peer) (H0 := Example.cid) db
    [0; 0; 195; 80; 0; 0; 97; 168; 0; 2; 47; 97]
  = NewIterator (H := Example.cid) db (50000 mod 2 ^ 32) (25000 mod 2 ^ 32).
Proof.
  intros db.
  apply (MultihashLister_of_minted_contextID (H := Example.peer)
           (H0 := Example.cid) db
           {| provider := Example.peerA;
              firstContentID := 50000;
              count := 25000 |}
           [0; 2; 47; 97]);
    reflexivity.
Defined.

(** ** The address of an autoretrieve *)

Lemma Split_not_nil (s : string) (sep : ascii) : Split s sep <> [].
Proof.
  destruct s as [| c rest]; cbn [Split]; [discriminate |].
  destruct (Ascii.eqb c sep); [discriminate |].
  destruct (Split rest sep); discriminate.
Qed.

Lemma Join_Split (s : string) (sep : ascii) : Join (Split s sep) sep = s.
Proof.
  induction s as [| c rest IH]; [reflexivity |]. cbn [Split].
  pose proof (Split_not_nil rest sep) as Hnil.
  destruct (Ascii.eqb_spec c sep) as [-> | Hc].
  - destruct (Split rest sep) as [| f fs] eqn:Hsplit; [contradiction |].
    cbn [Join] in *. cbn [String.append]. now rewrite IH.
  - destruct (Split rest sep) as [| f fs] eqn:Hsplit; [contradiction |].
    destruct fs as [| g fs]; cbn [Join] in *.
    + now rewrite IH.
    + cbn [String.append]. now rewrite IH.
Qed.

Lemma Split_fields (s : string) (sep : ascii) :
  Forall (fun field => Contains field sep = false) (Split s sep).
Proof.
  induction s as [| c rest IH]; cbn [Split].
  - repeat constructor.
  - destruct (Ascii.eqb c sep) eqn:Hc.
    + constructor; [reflexivity | exact IH].
    + destruct (Split rest sep) as [| f fs]; [repeat constructor; cbn;
                                               now rewrite Hc |].
      apply Forall_cons_iff in IH. destruct IH as [Hf Hfs].
      constructor; [| exact Hfs]. cbn [Contains]. now rewrite Hc, Hf.
Qed.

(** X8. [AddrInfo] never fails on the indexing of the split addresses, and
    it parses the first address only: the part of [Addresses] before its
    first comma (all of it when there is no comma). What follows the first
    comma is not looked at. *)
Theorem AddrInfo_parses_first_address `{PeerLib}
  (autoretrieve : Autoretrieve) :
  exists first,
    Autoretrieve_AddrInfo autoretrieve = AddrInfoFromString first
    /\ Contains first ","%char = false
    /\ (Addresses autoretrieve = first
        \/ exists rest,
             Addresses autoretrieve
             = (first ++ String ","%char rest)%string).
Proof.
  unfold Autoretrieve_AddrInfo.
  pose proof (Join_Split (Addresses autoretrieve) ","%char) as Hjoin.
  pose proof (Split_fields (Addresses autoretrieve) ","%char) as Hfields.
  pose proof (Split_not_nil (Addresses autoretrieve) ","%char) as Hnil.
  destruct (Split (Addresses autoretrieve) ","%char) as [| f fs];
    [contradiction |].
  exists f. cbn [hd]. split; [reflexivity |].
  apply Forall_cons_iff in Hfields. split; [tauto |].
  destruct fs as [| g fs]; cbn [Join] in Hjoin.
  - now left.
  - right. eexists. symmetry. exact Hjoin.
Qed.

(** ** The loop: gates, new batches, conflicts *)

(** The time since the last connection only grows: an autoretrieve that is
    offline at one reading of the clock is offline at every later one. *)
Lemma offline_later (provider : Provider) (now later : Z)
  (autoretrieve : Autoretrieve) :
  now <= later ->
  offline provider now autoretrieve = true ->
  offline provider later autoretrieve = true.
Proof.
  unfold offline. intros Hle Hoff.
  apply Z.gtb_lt in Hoff. apply Z.gtb_lt. lia.
Qed.

(** X9. The liveness gate. A tick does for a list of autoretrieves what it
    does for those among them that are online when their turn comes,
    whatever the ledger holds for the others; on autoretrieves that are all
    offline at their turn it changes nothing, makes no call and sends no
    statement. *)
Theorem offline_autoretrieves_are_skipped `{PeerLib}
  (fuel : nat) (provider : Provider) (engine : Engine)
  (database : Database) (highest : Z)
  (autoretrieves : list (Z * Autoretrieve)) (st : State) :
  advertise_autoretrieves fuel provider engine database highest
    autoretrieves st
  = advertise_autoretrieves fuel provider engine database highest
      (filter (fun turn => negb (offline provider (fst turn) (snd turn)))
         autoretrieves) st
  /\ advertise_autoretrieves fuel provider engine database highest
       (filter (fun turn => offline provider (fst turn) (snd turn))
          autoretrieves) st
     = Some (Ok st).
Proof.
  split.
  - revert st. induction autoretrieves as [| [now a] rest IH]; intros st;
      [reflexivity |].
    cbn [filter advertise_autoretrieves fst snd].
    destruct (offline provider now a) eqn:Hoff; cbn [negb].
    + unfold advertise_autoretrieve. rewrite Hoff. apply IH.
    + cbn [advertise_autoretrieves].
      destruct (advertise_autoretrieve fuel provider engine database highest
                  (now, a) st)
        as [[st1 | m | m] |]; try reflexivity.
      apply IH.
  - induction autoretrieves as [| [now a] rest IH]; [reflexivity |].
    cbn [filter fst snd].
    destruct (offline provider now a) eqn:Hoff; [| exact IH].
    cbn [advertise_autoretrieves]. unfold advertise_autoretrieve.
    rewrite Hoff. exact IH.
Qed.

(** X10. A batch without row. When no row of the ledger has the first
    content ID of the batch and the lookup is answered, the loop makes one
    call, [NotifyPut] with the context ID of the batch. If the call fails
    the ledger is unchanged, no row is sent and the failure is logged. If
    it succeeds the loop sends the row with the planned count: when the
    database carries the statement out the row is added under the next
    primary key, and it is the row the lookup then finds; when the database
    fails the ledger is unchanged and the failure is logged. *)
Theorem publish_new_batch `{PeerLib}
  (prov : Provider) (engine : Engine) (database : Database)
  (autoretrieve : Autoretrieve) (addrInfo : AddrInfo) (first cnt : Z)
  (st : State) (contextID : list Z) :
  database (queries st) (Where (Handle autoretrieve) first) = true ->
  (forall r, In r (published_batches st) -> FirstContentID r <> first) ->
  makeContextID {| provider := AddrInfo_ID addrInfo;
                   firstContentID := first;
                   count := batchSize prov |} = Ok contextID ->
  let lookup := Where (Handle autoretrieve) first in
  let put := NotifyPut addrInfo contextID Bitswap in
  let create := Create {| ID := 0;
                          FirstContentID := first;
                          Count := cnt;
                          AutoretrieveHandle := Handle autoretrieve |} in
  let row := {| ID := next_id st;
                FirstContentID := first;
                Count := cnt;
                AutoretrieveHandle := Handle autoretrieve |} in
  exists st',
    advertise_batch prov engine database autoretrieve addrInfo first cnt st
    = Ok st'
    /\ calls st' = calls st ++ [put]
    /\ if engine (calls st) put
       then
         queries st' = queries st ++ [lookup; create]
         /\ if database (queries st ++ [lookup]) create
            then
              published_batches st' = published_batches st ++ [row]
              /\ next_id st' = next_id st + 1
              /\ logs st' = logs st
              /\ db_Where (published_batches st') (Handle autoretrieve)
                   first = [row]
            else
              published_batches st' = published_batches st
              /\ next_id st' = next_id st
              /\ logs st'
                 = logs st
                   ++ [(Error, "Failed to write batch to database"%string)]
       else
         queries st' = queries st ++ [lookup]
         /\ published_batches st' = published_batches st
         /\ next_id st' = next_id st
         /\ logs st' = logs st ++ [(Error, "Failed to publish batch"%string)].
Proof.
  intros Hlookup Hnone Hctx lookup put create row.
  assert (Hwhere : db_Where (published_batches st) (Handle autoretrieve) first
                   = []).
  { destruct (db_Where _ _ _) as [| r l] eqn:Hw; [reflexivity |].
    assert (Hin : In r (db_Where (published_batches st)
                          (Handle autoretrieve) first))
      by (rewrite Hw; now left).
    apply db_Where_In in Hin. destruct Hin as (Hin & _ & Hfirst).
    now apply Hnone in Hin. }
  assert (Hexists : existsb (fun r => FirstContentID r =? first)
                      (published_batches st) = false).
  { destruct (existsb _ _) eqn:Hex; [| reflexivity].
    apply existsb_exists in Hex. destruct Hex as (r & Hin & Heq).
    apply Z.eqb_eq in Heq. now apply Hnone in Hin. }
  run_batch. rewrite Hlookup. cbn [negb]. rewrite Hwhere, Hctx.
  fold lookup. fold put. fold create.
  destruct (engine (calls st) put).
  - destruct (database (queries st ++ [lookup]) create).
    + unfold db_Create. subst create. cbn [FirstContentID Count
                                             AutoretrieveHandle].
      rewrite Hexists. eexists. split; [reflexivity |].
      cbn [record_query record_call log_line set_batches calls
           published_batches next_id logs queries].
      rewrite <- app_assoc. cbn [app].
      repeat (split; [reflexivity |]).
      unfold db_Where. rewrite filter_app.
      fold (db_Where (published_batches st) (Handle autoretrieve) first).
      rewrite Hwhere. cbn [filter app AutoretrieveHandle FirstContentID].
      now rewrite String.eqb_refl, Z.eqb_refl.
    + eexists. split; [reflexivity |].
      cbn [record_query record_call log_line set_batches calls
           published_batches next_id logs queries].
      rewrite <- app_assoc. cbn [app]. repeat split.
  - eexists. split; [reflexivity |].
    cbn [record_query record_call log_line set_batches calls
           published_batches next_id logs queries].
    repeat split.
Qed.

Lemma publish_new_batch_witness :
  exists st',
    advertise_batch (NewProvider 100) Example.reliable Example.sound
      (Example.node "A" "/a" 0) Example.addrA 50000 10000
      Example.empty_state = Ok st'
    /\ published_batches st'
       = [{| ID := 1; FirstContentID := 50000; Count := 10000;
             AutoretrieveHandle := "A" |}].
Proof.
  destruct (publish_new_batch (H := Example.peer)
              (NewProvider 100) Example.reliable Example.sound
              (Example.node "A" "/a" 0)
              Example.addrA 50000 10000 Example.empty_state
              [0; 0; 195; 80; 0; 0; 97; 168; 0; 2; 47; 97]
              eq_refl ltac:(intros r []) eq_refl)
    as (st' & Hrun & _ & Hput).
  exists st'. split; [exact Hrun |].
  cbn in Hput. destruct Hput as (_ & Hrows & _). exact Hrows.
Defined.

(** X11. A batch whose first content ID another autoretrieve has in the
    ledger. The lookup by handle finds no row, the loop publishes the batch,
    and the row is refused, by the constraint if not by a failure of the
    database: the ledger is left as it was, the refusal is logged, and the
    batch is in the same state for the next tick, which publishes it
    again. *)
Theorem publish_again_after_refused_row `{PeerLib}
  (prov : Provider) (engine : Engine) (database : Database)
  (autoretrieve : Autoretrieve) (addrInfo : AddrInfo) (first cnt : Z)
  (st : State) (contextID : list Z) (other : PublishedBatch) :
  In other (published_batches st) ->
  FirstContentID other = first ->
  db_Where (published_batches st) (Handle autoretrieve) first = [] ->
  makeContextID {| provider := AddrInfo_ID addrInfo;
                   firstContentID := first;
                   count := batchSize prov |} = Ok contextID ->
  (forall history c, engine history c = true) ->
  (forall history handle first',
      database history (Where handle first') = true) ->
  let put := NotifyPut addrInfo contextID Bitswap in
  exists st' st'',
    advertise_batch prov engine database autoretrieve addrInfo first cnt st
    = Ok st'
    /\ published_batches st' = published_batches st
    /\ calls st' = calls st ++ [put]
    /\ logs st'
       = logs st ++ [(Error, "Failed to write batch to database"%string)]
    /\ advertise_batch prov engine database autoretrieve addrInfo first cnt
         st' = Ok st''
    /\ calls st'' = calls st ++ [put; put].
Proof.
  intros Hin Hfirst Hwhere Hctx Hengine Hlookups put.
  assert (Hstep : forall s,
            published_batches s = published_batches st ->
            exists s',
              advertise_batch prov engine database autoretrieve addrInfo
                first cnt s = Ok s'
              /\ published_batches s' = published_batches s
              /\ calls s' = calls s ++ [put]
              /\ logs s'
                 = logs s
                   ++ [(Error, "Failed to write batch to database"%string)]).
  { intros s Hrows. run_batch. rewrite Hlookups. cbn [negb].
    rewrite Hrows, Hwhere, Hctx. fold put. rewrite Hengine.
    rewrite (db_Create_refuses_same_first _ _ _ other Hin) by exact Hfirst.
    destruct (database _ _); eexists; repeat split; exact Hrows. }
  destruct (Hstep st eq_refl) as (st' & Hrun & Hrows & Hcalls & Hlogs).
  destruct (Hstep st' Hrows) as (st'' & Hrun' & _ & Hcalls' & _).
  exists st', st''. split; [exact Hrun |]. split; [exact Hrows |].
  split; [exact Hcalls |]. split; [exact Hlogs |]. split; [exact Hrun' |].
  rewrite Hcalls', Hcalls, <- app_assoc. reflexivity.
Qed.

Lemma publish_again_after_refused_row_witness :
  let st := Example.state_of
              [{| ID := 1; FirstContentID := 0; Count := 10;
                  AutoretrieveHandle := "A" |}] 2 in
  exists st',
    advertise_batch (NewProvider 100) Example.reliable Example.sound
      (Example.node "B" "/a" 0) Example.addrA 0 10 st = Ok st'
    /\ published_batches st' = published_batches st.
Proof.
  intros st.
  destruct (publish_again_after_refused_row (H := Example.peer)
              (NewProvider 100) Example.reliable Example.sound
              (Example.node "B" "/a" 0)
              Example.addrA 0 10 st
              [0; 0; 0; 0; 0; 0; 97; 168; 0; 2; 47; 97]
              {| ID := 1; FirstContentID := 0; Count := 10;
                 AutoretrieveHandle := "A" |}
              ltac:(now left) eq_refl eq_refl eq_refl
              ltac:(reflexivity) ltac:(reflexivity))
    as (st' & _ & Hrun & Hrows & _).
  exists st'. split; [exact Hrun | exact Hrows].
Defined.

(** ** What a tick never does *)

Section TickInvariant.
Context `{PeerLib}.
Variable P : State -> Prop.
Variable R : State -> State -> Prop.
Hypothesis R_refl : forall s, R s s.
Hypothesis R_trans : forall a b c, R a b -> R b c -> R a c.
Hypothesis R_log : forall s l m, R s (log_line s l m).
Hypothesis P_log : forall s l m, P s -> P (log_line s l m).
Hypothesis step :
  forall provider engine database autoretrieve addrInfo first cnt s,
    P s ->
    exists s',
      advertise_batch provider engine database autoretrieve addrInfo first
        cnt s = Ok s'
      /\ R s s' /\ P s'.

Lemma batch_loop_invariant (provider : Provider) (engine : Engine)
  (database : Database) (autoretrieve : Autoretrieve) (addrInfo : AddrInfo)
  (last : Z) (fuel : nat) :
  forall (first : Z) (st : State) (r : result State),
    P st ->
    batch_loop fuel provider
      (advertise_batch provider engine database autoretrieve addrInfo)
      first last st
    = Some r ->
    exists st', r = Ok st' /\ R st st' /\ P st'.
Proof.
  induction fuel as [| fuel IH]; intros first st r HP; [discriminate |].
  cbn [batch_loop]. destruct (first <=? last).
  - destruct (step provider engine database autoretrieve addrInfo first
                (batch_count provider first last) st HP)
      as (s1 & -> & HR1 & HP1).
    intros Hloop. destruct (IH _ _ _ HP1 Hloop) as (st' & -> & HR & HP').
    exists st'. split; [reflexivity |]. split; [| exact HP'].
    now apply (R_trans _ s1).
  - intros Heq. injection Heq as <-. now exists st.
Qed.

Lemma advertise_autoretrieves_invariant (fuel : nat) (provider : Provider)
  (engine : Engine) (database : Database) (last : Z)
  (autoretrieves : list (Z * Autoretrieve)) :
  forall (st : State) (r : result State),
    P st ->
    advertise_autoretrieves fuel provider engine database last
      autoretrieves st = Some r ->
    exists st', r = Ok st' /\ R st st' /\ P st'.
Proof.
  induction autoretrieves as [| [now a] ts IH]; intros st r HP;
    cbn [advertise_autoretrieves].
  - intros Heq. injection Heq as <-. now exists st.
  - assert (Ha : forall ra,
              advertise_autoretrieve fuel provider engine database last
                (now, a) st = Some ra ->
              exists s1, ra = Ok s1 /\ R st s1 /\ P s1).
    { unfold advertise_autoretrieve.
      destruct (offline provider now a);
        [intros ra Heq; injection Heq as <-; now exists st |].
      destruct (Autoretrieve_AddrInfo a) as [addrInfo |].
      - intros ra. now apply batch_loop_invariant.
      - intros ra Heq. injection Heq as <-. eexists.
        split; [reflexivity |]. split; [apply R_log | now apply P_log]. }
    destruct (advertise_autoretrieve fuel provider engine database last
                (now, a) st)
      as [ra |]; [| discriminate].
    destruct (Ha ra eq_refl) as (s1 & -> & HR1 & HP1).
    intros Hrest. destruct (IH _ _ HP1 Hrest) as (st' & -> & HR & HP').
    exists st'. split; [reflexivity |]. split; [| exact HP'].
    now apply (R_trans _ s1).
Qed.

(** A tick that ends has neither failed nor panicked, and it has kept the
    invariant and the relation that every step keeps. *)
Lemma tick_invariant (fuel : nat) (provider : Provider) (engine : Engine)
  (database : Database) (clock : nat -> Z) (lastContent : fetched Z)
  (autoretrieves : fetched (list Autoretrieve)) (st : State)
  (r : result State) :
  P st ->
  tick fuel provider engine database clock lastContent autoretrieves st
  = Some r ->
  exists st', r = Ok st' /\ R st st' /\ P st'.
Proof.
  intros HP Htick.
  assert (Hlog : forall l m,
            Some (Ok (log_line st l m)) = Some r ->
            exists st', r = Ok st' /\ R st st' /\ P st').
  { intros l m Heq. injection Heq as <-. eexists. split; [reflexivity |].
    split; [apply R_log | now apply P_log]. }
  unfold tick in Htick.
  destruct lastContent as [last | |];
    [| injection Htick as <-; now exists st | now apply Hlog in Htick].
  destruct autoretrieves as [ars | |];
    [| now apply Hlog in Htick | now apply Hlog in Htick].
  now apply (advertise_autoretrieves_invariant _ _ _ _ _ _ _ _ HP Htick).
Qed.

End TickInvariant.

Lemma republished_app `{PeerLib} (l1 l2 : list call) :
  republished l1 -> republished l2 -> republished (l1 ++ l2).
Proof.
  intros H1 H2. induction H1; cbn [app];
    [exact H2 | now constructor | now constructor].
Qed.

Lemma makeContextID_Ok_or_Err `{PeerLib} (params : contextParams) :
  (exists contextID, makeContextID params = Ok contextID)
  \/ exists m, makeContextID params = Err m.
Proof.
  rewrite makeContextID_layout.
  destruct (MarshalBinary (provider params)); [left | right]; eexists;
    reflexivity.
Qed.

Section Steps.
Context `{PeerLib}.

Lemma extends_refl (s : State) : extends s s.
Proof.
  exists [], []. rewrite !app_nil_r. repeat split. constructor.
Qed.

Lemma extends_trans (a b c : State) : extends a b -> extends b c -> extends a c.
Proof.
  intros (n1 & l1 & Hc1 & Hr1 & Hl1) (n2 & l2 & Hc2 & Hr2 & Hl2).
  exists (n1 ++ n2), (l1 ++ l2).
  rewrite Hc2, Hc1, Hl2, Hl1, <- !app_assoc.
  repeat split. now apply republished_app.
Qed.

Lemma extends_log (s : State) (l : level) (m : string) :
  extends s (log_line s l m).
Proof.
  exists [], [(l, m)]. cbn [log_line calls logs]. rewrite app_nil_r.
  repeat split. constructor.
Qed.

Lemma extends_calls (s s' : State) (new : list call)
  (lines : list (level * string)) :
  calls s' = calls s ++ new -> republished new ->
  logs s' = logs s ++ lines -> extends s s'.
Proof. intros. now exists new, lines. Qed.

Ltac state_cbn :=
  cbn [record_query record_call log_line set_batches published_batches
       next_id calls queries logs].

(** One batch: the body of the loop always returns, and what it adds to
    the calls is nothing, a put, or a remove and the put of the same
    context ID. *)
Lemma advertise_batch_extends (provider : Provider) (engine : Engine)
  (database : Database) (autoretrieve : Autoretrieve) (addrInfo : AddrInfo)
  (first cnt : Z) (s : State) :
  True ->
  exists s',
    advertise_batch provider engine database autoretrieve addrInfo first cnt
      s = Ok s'
    /\ extends s s' /\ True.
Proof.
  intros _. run_batch.
  destruct (database (queries s) (Where (Handle autoretrieve) first));
    cbn [negb].
  2:{ eexists. split; [reflexivity |]. split; [| exact I].
      eapply (extends_calls _ _ []);
        [state_cbn; now rewrite app_nil_r | constructor
         | state_cbn; reflexivity]. }
  destruct (db_Where (published_batches s) (Handle autoretrieve) first)
    as [| row rest].
  - destruct (makeContextID_Ok_or_Err
                {| provider := AddrInfo_ID addrInfo;
                   firstContentID := first;
                   count := batchSize provider |})
      as [[contextID ->] | [m ->]].
    + batch_cases; eexists; (split; [reflexivity |]);
        (split; [| exact I]);
        (eapply (extends_calls _ _ [NotifyPut addrInfo contextID Bitswap]);
         [state_cbn; reflexivity | repeat constructor |]);
        state_cbn;
        first [ now instantiate (1 := [])
              | symmetry; apply app_nil_r
              | reflexivity ].
    + eexists. split; [reflexivity |]. split; [| exact I].
      eapply (extends_calls _ _ []);
        [state_cbn; now rewrite app_nil_r | constructor
         | state_cbn; reflexivity].
  - destruct (Count row =? cnt).
    + eexists. split; [reflexivity |]. split; [| exact I].
      eapply (extends_calls _ _ [] []);
        [state_cbn; now rewrite app_nil_r | constructor
         | state_cbn; now rewrite app_nil_r].
    + destruct (makeContextID_Ok_or_Err
                  {| provider := AddrInfo_ID addrInfo;
                     firstContentID := first;
                     count := batchSize provider |})
        as [[contextID ->] | [m ->]].
      * cbn [negb].
        destruct (engine (calls s) _); batch_cases;
          eexists; (split; [reflexivity |]); (split; [| exact I]);
          (eapply (extends_calls _ _
                     [NotifyRemove (AddrInfo_ID addrInfo) contextID;
                      NotifyPut addrInfo contextID Bitswap]);
           [state_cbn; now rewrite <- app_assoc
           | repeat constructor |]);
          state_cbn;
          first [ symmetry; apply app_nil_r
                | rewrite <- app_assoc; reflexivity
                | reflexivity ].
      * eexists. split; [reflexivity |]. split; [| exact I].
        eapply (extends_calls _ _ []);
          [state_cbn; now rewrite app_nil_r | constructor
           | state_cbn; reflexivity].
Qed.

End Steps.

(** X12. A tick that ends has not failed and has not panicked. The calls
    it made come after the calls made before, and among them every
    [NotifyRemove] is followed at once by the [NotifyPut] of the same peer
    with the same context ID: the loop never retracts an advertisement
    without publishing it again. The log only grows. *)
Theorem tick_republishes_what_it_removes `{PeerLib}
  (fuel : nat) (provider : Provider) (engine : Engine)
  (database : Database) (clock : nat -> Z)
  (lastContent : fetched Z) (autoretrieves : fetched (list Autoretrieve))
  (st : State) (r : result State) :
  tick fuel provider engine database clock lastContent autoretrieves st
  = Some r ->
  exists st' new lines,
    r = Ok st'
    /\ calls st' = calls st ++ new
    /\ republished new
    /\ logs st' = logs st ++ lines.
Proof.
  intros Htick.
  destruct (tick_invariant (fun _ => True) extends
              extends_refl extends_trans extends_log (fun _ _ _ _ => I)
              advertise_batch_extends
              fuel provider engine database clock lastContent autoretrieves
              st r I Htick)
    as (st' & -> & (new & lines & Hcalls & Hrep & Hlogs) & _).
  now exists st', new, lines.
Qed.

Lemma tick_republishes_what_it_removes_witness :
  let st := Example.state_of
              [{| ID := 1; FirstContentID := 0; Count := 10;
                  AutoretrieveHandle := "A" |}] 2 in
  exists st',
    tick 3 (NewProvider 100) Example.reliable Example.sound
      (Example.at_time 50) (Found 20)
      (Found [Example.node "A" "/a" 0]) st = Some (Ok st')
    /\ republished (calls st').
Proof.
  intros st.
  destruct (tick 3 (NewProvider 100) Example.reliable Example.sound
              (Example.at_time 50) (Found 20)
              (Found [Example.node "A" "/a" 0]) st) as [r |] eqn:Htick;
    [| vm_compute in Htick; discriminate].
  destruct (tick_republishes_what_it_removes (H := Example.peer)
              3 (NewProvider 100) Example.reliable Example.sound
              (Example.at_time 50) (Found 20)
              (Found [Example.node "A" "/a" 0]) st r Htick)
    as (st' & new & lines & -> & Hcalls & Hrep & _).
  exists st'. split; [reflexivity |].
  rewrite Hcalls. exact Hrep.
Defined.

(** X13. A tick ends. With a positive batch size, a highest content ID
    that leaves room for one more batch below 2^64, and fuel for one test
    more than there are batches, the tick returns a state, whatever the
    ledger, the autoretrieves, the readings of the clock and the answers of
    the engine and of the database. *)
Theorem tick_terminates `{PeerLib}
  (fuel : nat) (provider : Provider) (engine : Engine)
  (database : Database) (clock : nat -> Z) (highest : Z)
  (autoretrieves : fetched (list Autoretrieve)) (st : State) :
  0 < batchSize provider ->
  0 <= highest ->
  highest + batchSize provider < 2 ^ 64 ->
  (S (Z.to_nat (highest / batchSize provider)) < fuel)%nat ->
  exists st',
    tick fuel provider engine database clock (Found highest) autoretrieves st
    = Some (Ok st').
Proof.
  intros Hw Hhighest Hmax Hfuel.
  assert (Hleft : (batches_left provider 0 highest < fuel)%nat).
  { unfold batches_left. destruct (Z.leb_spec 0 highest); [| lia].
    now rewrite Z.sub_0_r. }
  cbn [tick]. destruct autoretrieves as [ars | |];
    try (eexists; reflexivity).
  generalize (turns clock ars). intros ts.
  revert st. induction ts as [| [now a] ts IH]; intros st;
    [eexists; reflexivity |].
  cbn [advertise_autoretrieves].
  assert (Ha : exists s1,
            advertise_autoretrieve fuel provider engine database highest
              (now, a) st = Some (Ok s1)).
  { unfold advertise_autoretrieve.
    destruct (offline provider now a); [eexists; reflexivity |].
    destruct (Autoretrieve_AddrInfo a) as [addrInfo |];
      [| eexists; reflexivity].
    pose proof (batch_loop_run
                  (advertise_batch provider engine database a addrInfo)
                  provider highest Hw Hmax
                  (batches_left provider 0 highest) fuel 0 st
                  ltac:(lia) eq_refl Hleft) as Hrun.
    destruct (batch_loop_invariant (fun _ => True) extends
                extends_refl extends_trans advertise_batch_extends
                provider engine database a addrInfo highest fuel 0 st _
                I Hrun)
      as (s1 & Hs1 & _).
    exists s1. now rewrite Hrun, Hs1. }
  destruct Ha as (s1 & ->). apply IH.
Qed.

Lemma tick_terminates_witness :
  exists st',
    tick 5 (NewProvider 100) Example.reliable Example.sound
      (Example.at_time 50) (Found 60000)
      (Found [Example.node "A" "/a" 0; Example.node "B" "/b" 0])
      Example.empty_state
    = Some (Ok st').
Proof.
  apply (tick_terminates (H := Example.peer));
    [simpl; lia | lia | simpl; lia | vm_compute; lia].
Defined.

(** ** The rows of the ledger *)

Section LedgerSteps.
Context `{PeerLib}.

(** What one batch does to the ledger: nothing, a new row at the end, or a
    new count for the row the lookup found. *)
Lemma advertise_batch_ledger_cases (provider : Provider) (engine : Engine)
  (database : Database) (autoretrieve : Autoretrieve) (addrInfo : AddrInfo)
  (first cnt : Z) (s s' : State) :
  advertise_batch provider engine database autoretrieve addrInfo first cnt s
  = Ok s' ->
  (published_batches s' = published_batches s /\ next_id s' = next_id s)
  \/ (db_Where (published_batches s) (Handle autoretrieve) first = []
      /\ published_batches s'
         = published_batches s
           ++ [{| ID := next_id s;
                  FirstContentID := first;
                  Count := cnt;
                  AutoretrieveHandle := Handle autoretrieve |}]
      /\ next_id s' = next_id s + 1)
  \/ (exists row rest,
        db_Where (published_batches s) (Handle autoretrieve) first
        = row :: rest
        /\ published_batches s'
           = db_Save (published_batches s) (set_Count row cnt)
        /\ next_id s' = next_id s).
Proof.
  run_batch.
  destruct (database (queries s) (Where (Handle autoretrieve) first));
    cbn [negb]; [| intros Heq; injection Heq as <-; now left].
  destruct (db_Where (published_batches s) (Handle autoretrieve) first)
    as [| row rest] eqn:Hwhere.
  - destruct (makeContextID _) as [contextID | m | m]; [| | discriminate];
      [| intros Heq; injection Heq as <-; now left].
    destruct (engine (calls s) _);
      [| intros Heq; injection Heq as <-; now left].
    destruct (database _ _);
      [| intros Heq; injection Heq as <-; now left].
    unfold db_Create. cbn [FirstContentID Count AutoretrieveHandle].
    destruct (existsb _ _); intros Heq; injection Heq as <-;
      [now left | right; left; repeat split].
  - destruct (Count row =? cnt);
      [intros Heq; injection Heq as <-; now left |].
    destruct (makeContextID _) as [contextID | m | m]; [| | discriminate];
      cbn [negb]; [| intros Heq; injection Heq as <-; now left].
    destruct (engine (calls s) _); batch_cases;
      intros Heq; injection Heq as <-;
      first [ now left
            | right; right; exists row, rest; repeat split ].
Qed.

Lemma advertise_batch_keeps_rows (provider : Provider) (engine : Engine)
  (database : Database) (autoretrieve : Autoretrieve) (addrInfo : AddrInfo)
  (first cnt : Z) (s : State) :
  ledger_ok s ->
  exists s',
    advertise_batch provider engine database autoretrieve addrInfo first cnt
      s = Ok s'
    /\ keeps_rows s s' /\ ledger_ok s'.
Proof.
  intros Hok.
  destruct (advertise_batch_extends provider engine database autoretrieve
              addrInfo first cnt s I) as (s' & Hrun & _).
  exists s'. split; [exact Hrun |].
  split;
    [| now apply (advertise_batch_ledger_ok _ _ _ _ _ _ _ _ _ Hok Hrun)].
  destruct (advertise_batch_ledger_cases _ _ _ _ _ _ _ _ _ Hrun)
    as [[Hrows Hnext] | [(_ & Hrows & Hnext) | (row & rest & Hw & Hrows & Hnext)]].
  - exists []. rewrite Hrows, app_nil_r. split; [reflexivity | lia].
  - eexists. rewrite Hrows, map_app. split; [reflexivity | lia].
  - exists []. rewrite Hrows, app_nil_r. split; [| lia].
    apply db_Save_map; [reflexivity | apply Hok |].
    assert (Hin : In row (db_Where (published_batches s)
                            (Handle autoretrieve) first))
      by (rewrite Hw; now left).
    apply db_Where_In in Hin. tauto.
Qed.

Lemma keeps_rows_refl (s : State) : keeps_rows s s.
Proof. exists []. rewrite app_nil_r. split; [reflexivity | lia]. Qed.

Lemma keeps_rows_trans (a b c : State) :
  keeps_rows a b -> keeps_rows b c -> keeps_rows a c.
Proof.
  intros (l1 & H1 & Hn1) (l2 & H2 & Hn2). exists (l1 ++ l2).
  rewrite H2, H1, <- app_assoc. split; [reflexivity | lia].
Qed.

End LedgerSteps.

(** X14. A tick deletes no row of the ledger and leaves every row its
    primary key, its handle and its first content ID: from a ledger with
    distinct first content IDs and distinct primary keys below the next
    one, the rows after the tick are the rows before, in place, with counts
    possibly updated, followed by the rows the tick added; and the ledger
    still has distinct first content IDs and primary keys. *)
Theorem tick_keeps_the_rows `{PeerLib}
  (fuel : nat) (provider : Provider) (engine : Engine)
  (database : Database) (clock : nat -> Z)
  (lastContent : fetched Z) (autoretrieves : fetched (list Autoretrieve))
  (st st' : State) :
  ledger_ok st ->
  tick fuel provider engine database clock lastContent autoretrieves st
  = Some (Ok st') ->
  (exists added,
     map row_key (published_batches st')
     = map row_key (published_batches st) ++ added)
  /\ next_id st <= next_id st'
  /\ ledger_ok st'.
Proof.
  intros Hok Htick.
  destruct (tick_invariant ledger_ok keeps_rows
              keeps_rows_refl keeps_rows_trans
              (fun s l m => keeps_rows_refl s) (fun s l m Hs => Hs)
              advertise_batch_keeps_rows
              fuel provider engine database clock lastContent autoretrieves
              st _ Hok Htick)
    as (s & Hs & (added & Hrows & Hnext) & Hok').
  injection Hs as <-. split; [now exists added |]. split; assumption.
Qed.

Lemma tick_keeps_the_rows_witness :
  let st := Example.state_of
              [{| ID := 1; FirstContentID := 0; Count := 10;
                  AutoretrieveHandle := "A" |}] 2 in
  exists st' added,
    tick 3 (NewProvider 100) Example.reliable Example.sound
      (Example.at_time 50) (Found 30000)
      (Found [Example.node "A" "/a" 0]) st = Some (Ok st')
    /\ map row_key (published_batches st') = (1, "A"%string, 0) :: added.
Proof.
  intros st.
  assert (Hok : ledger_ok st).
  { repeat split; repeat constructor; simpl; try tauto; lia. }
  destruct (tick 3 (NewProvider 100) Example.reliable Example.sound
              (Example.at_time 50) (Found 30000)
              (Found [Example.node "A" "/a" 0]) st)
    as [[st' | m | m] |] eqn:Htick;
    try (vm_compute in Htick; discriminate).
  destruct (tick_keeps_the_rows (H := Example.peer)
              3 (NewProvider 100) Example.reliable Example.sound
              (Example.at_time 50) (Found 30000)
              (Found [Example.node "A" "/a" 0]) st st' Hok Htick)
    as ((added & Hrows) & _).
  exists st', added. split; [reflexivity | exact Hrows].
Defined.

(** ** One tick brings the ledger to the plan *)

Lemma batches_from_firsts (provider : Provider) (last : Z) (n : nat) :
  0 < batchSize provider ->
  forall first f,
    In f (map fst (batches_from n provider first last)) -> first <= f.
Proof.
  intros Hw. induction n as [| n IH]; intros first f; cbn [batches_from map];
    [contradiction |].
  intros [<- | Hin]; [cbn; lia |]. apply IH in Hin. lia.
Qed.

Lemma batches_from_NoDup (provider : Provider) (last : Z) (n : nat) :
  0 < batchSize provider ->
  forall first, NoDup (map fst (batches_from n provider first last)).
Proof.
  intros Hw. induction n as [| n IH]; intros first; cbn [batches_from map];
    constructor; [| apply IH].
  intros Hin. apply (batches_from_firsts provider last n Hw) in Hin.
  cbn [fst] in Hin. lia.
Qed.

Section Convergence.
Context `{PeerLib}.
Variable prov : Provider.
Variable engine : Engine.
Variable database : Database.
Variable autoretrieve : Autoretrieve.
Variable addrInfo : AddrInfo.
Variable peerIDBytes : list Z.
Hypothesis engine_reliable : forall history c, engine history c = true.
Hypothesis database_sound : forall history q, database history q = true.
Hypothesis marshal_ok : MarshalBinary (AddrInfo_ID addrInfo) = Some peerIDBytes.

Lemma advertise_batch_converges (first cnt : Z) (s : State) :
  own_ledger autoretrieve s ->
  exists s',
    advertise_batch prov engine database autoretrieve addrInfo first cnt s = Ok s'
    /\ own_ledger autoretrieve s'
    /\ (exists row,
          In row (published_batches s')
          /\ AutoretrieveHandle row = Handle autoretrieve
          /\ FirstContentID row = first
          /\ Count row = cnt)
    /\ (forall r, In r (published_batches s) -> FirstContentID r <> first ->
                  In r (published_batches s')).
Proof.
  intros [Hok Hown].
  destruct (advertise_batch_extends prov engine database autoretrieve
              addrInfo first cnt s I) as (s' & Hrun & _).
  exists s'. split; [exact Hrun |].
  pose proof (advertise_batch_ledger_ok _ _ _ _ _ _ _ _ _ Hok Hrun) as Hok'.
  revert Hrun. run_batch. rewrite makeContextID_layout.
  cbn [provider]. rewrite marshal_ok.
  rewrite !engine_reliable, !database_sound. cbn [negb].
  destruct (db_Where (published_batches s) (Handle autoretrieve) first)
    as [| row rest] eqn:Hwhere.
  - assert (Hnone : existsb (fun r => FirstContentID r =? first)
                      (published_batches s) = false).
    { destruct (existsb _ _) eqn:Hex; [| reflexivity].
      apply existsb_exists in Hex. destruct Hex as (r & Hin & Heq).
      apply Z.eqb_eq in Heq.
      assert (Hr : In r (db_Where (published_batches s)
                           (Handle autoretrieve) first)).
      { apply db_Where_In. rewrite Forall_forall in Hown. auto. }
      rewrite Hwhere in Hr. contradiction. }
    unfold db_Create. cbn [FirstContentID].
    rewrite Hnone. intros Heq. injection Heq as <-.
    cbn [set_batches published_batches] in *.
    split; [split; [exact Hok' |] |].
    + apply Forall_app. split; [exact Hown | repeat constructor].
    + split.
      * eexists. split; [apply in_or_app; right; now left |].
        repeat split.
      * intros r Hin _. apply in_or_app. now left.
  - assert (Hrow : In row (published_batches s)
                   /\ AutoretrieveHandle row = Handle autoretrieve
                   /\ FirstContentID row = first).
    { apply db_Where_In. rewrite Hwhere. now left. }
    destruct Hrow as (Hin & Hhandle & Hfirst).
    destruct (Z.eqb_spec (Count row) cnt) as [Hcount | Hcount].
    + intros Heq. injection Heq as <-.
      split; [now split |]. split; [now exists row | tauto].
    + cbn [negb record_query record_call log_line set_batches
           published_batches next_id calls queries logs].
      rewrite ?engine_reliable, ?database_sound.
      intros Heq. injection Heq as <-.
      cbn [set_batches published_batches] in *.
      split; [split; [exact Hok' |] |].
      * apply Forall_forall. intros r Hr. unfold db_Save in Hr.
        apply in_map_iff in Hr. destruct Hr as (r0 & <- & Hr0).
        rewrite Forall_forall in Hown.
        destruct (ID r0 =? ID (set_Count row cnt));
          [exact Hhandle | now apply Hown].
      * split.
        -- exists (set_Count row cnt). split; [| now repeat split].
           unfold db_Save. apply in_map_iff. exists row.
           split; [| exact Hin]. now rewrite Z.eqb_refl.
        -- intros r Hr Hne. unfold db_Save. apply in_map_iff. exists r.
           split; [| exact Hr]. cbn [ID set_Count].
           destruct (Z.eqb_spec (ID r) (ID row)) as [Hid | _];
             [| reflexivity].
           destruct Hok as (_ & Hids & _).
           rewrite (NoDup_map_inj ID _ Hids r row Hr Hin Hid) in Hne.
           contradiction.
Qed.

Lemma run_batches_converges (bs : list (Z * Z)) :
  NoDup (map fst bs) ->
  forall s,
    own_ledger autoretrieve s ->
    exists s',
      run_batches (advertise_batch prov engine database autoretrieve addrInfo)
        bs s = Ok s'
      /\ own_ledger autoretrieve s'
      /\ advertised (published_batches s') autoretrieve bs
      /\ (forall r, In r (published_batches s) ->
                    ~ In (FirstContentID r) (map fst bs) ->
                    In r (published_batches s')).
Proof.
  induction bs as [| [first cnt] bs IH]; intros Hnodup s Hs.
  - exists s. split; [reflexivity |]. split; [exact Hs |].
    split; [intros f c [] | tauto].
  - cbn [map fst] in Hnodup. apply NoDup_cons_iff in Hnodup.
    destruct Hnodup as [Hfresh Hnodup].
    destruct (advertise_batch_converges first cnt s Hs)
      as (s1 & Hrun1 & Hs1 & (row & Hrow & Hhandle & Hfirst & Hcount) & Hkeep1).
    destruct (IH Hnodup s1 Hs1) as (s' & Hrun & Hs' & Hadv & Hkeep).
    exists s'. cbn [run_batches]. rewrite Hrun1. cbn [bind].
    split; [exact Hrun |]. split; [exact Hs' |]. split.
    + intros f c [Heq | Hin].
      * injection Heq as <- <-. exists row. split; [| tauto].
        apply Hkeep; [exact Hrow | now rewrite Hfirst].
      * now apply Hadv.
    + intros r Hr Hnotin. apply Hkeep.
      * apply Hkeep1; [exact Hr |]. intros Heq. apply Hnotin. now left.
      * intros Hin. apply Hnotin. now right.
Qed.

End Convergence.

(** X15. One tick brings the ledger to the plan. For an autoretrieve that
    is online at its turn, whose address parses and whose peer ID
    serializes, an engine whose calls all succeed, a database that carries
    every statement out, and a ledger in order that holds rows of this
    autoretrieve only, the tick ends with a ledger that has, for every
    planned batch, the row with the planned count; the tick after it makes
    no call and leaves the ledger as it is, whatever the engine, the
    database and the clock do then. *)
Theorem one_tick_converges `{PeerLib}
  (fuel : nat) (prov : Provider) (engine : Engine) (database : Database)
  (clock : nat -> Z) (highest : Z)
  (autoretrieve : Autoretrieve) (addrInfo : AddrInfo)
  (peerIDBytes : list Z) (st : State) :
  0 < batchSize prov ->
  0 <= highest ->
  highest + batchSize prov < 2 ^ 64 ->
  (S (Z.to_nat (highest / batchSize prov)) < fuel)%nat ->
  (forall history c, engine history c = true) ->
  (forall history q, database history q = true) ->
  offline prov (clock 0%nat) autoretrieve = false ->
  Autoretrieve_AddrInfo autoretrieve = Some addrInfo ->
  MarshalBinary (AddrInfo_ID addrInfo) = Some peerIDBytes ->
  own_ledger autoretrieve st ->
  exists st',
    tick fuel prov engine database clock (Found highest)
      (Found [autoretrieve]) st
    = Some (Ok st')
    /\ own_ledger autoretrieve st'
    /\ advertised (published_batches st') autoretrieve (batches prov highest)
    /\ forall (engine' : Engine) (database' : Database) (clock' : nat -> Z),
       exists st'',
         tick fuel prov engine' database' clock' (Found highest)
           (Found [autoretrieve]) st'
         = Some (Ok st'')
         /\ published_batches st'' = published_batches st'
         /\ calls st'' = calls st'.
Proof.
  intros Hw Hhighest Hmax Hfuel Hengine Hdatabase Hon Haddr Hmarshal Hown.
  assert (Hleft : (batches_left prov 0 highest < fuel)%nat).
  { unfold batches_left. destruct (Z.leb_spec 0 highest); [| lia].
    now rewrite Z.sub_0_r. }
  destruct (run_batches_converges prov engine database autoretrieve addrInfo
              peerIDBytes Hengine Hdatabase Hmarshal (batches prov highest)
              (batches_from_NoDup prov highest _ Hw 0) st Hown)
    as (st' & Hrun & Hown' & Hadv & _).
  exists st'. split.
  - cbn [tick turns length seq map combine advertise_autoretrieves].
    unfold advertise_autoretrieve.
    rewrite Hon, Haddr.
    rewrite (batch_loop_run _ prov highest Hw Hmax
               (batches_left prov 0 highest) fuel 0 st)
      by (reflexivity || lia).
    fold (batches prov highest). now rewrite Hrun.
  - split; [exact Hown' |]. split; [exact Hadv |].
    intros engine' database' clock'.
    destruct (advertise_autoretrieves_advertised fuel prov engine' database'
                highest (turns clock' [autoretrieve]) Hw Hhighest Hmax Hleft
                st')
      as (st'' & Hrun' & Hrows & _ & Hcalls).
    + apply one_row_per_first_pair. apply Hown'.
    + intros now a [Heq | []] _. injection Heq as <- <-. exact Hadv.
    + now exists st''.
Qed.

Lemma one_tick_converges_witness :
  exists st',
    tick 5 (NewProvider 100) Example.reliable Example.sound
      (Example.at_time 50) (Found 60000)
      (Found [Example.node "A" "/a" 0]) Example.empty_state
    = Some (Ok st')
    /\ advertised (published_batches st') (Example.node "A" "/a" 0)
         (batches (NewProvider 100) 60000).
Proof.
  destruct (one_tick_converges (H := Example.peer)
              5 (NewProvider 100) Example.reliable Example.sound
              (Example.at_time 50) 60000
              (Example.node "A" "/a" 0) Example.addrA [0; 2; 47; 97]
              Example.empty_state)
    as (st' & Hrun & _ & Hadv & _).
  - simpl; lia.
  - lia.
  - simpl; lia.
  - vm_compute; lia.
  - reflexivity.
  - reflexivity.
  - reflexivity.
  - reflexivity.
  - reflexivity.
  - repeat split; repeat constructor.
  - exists st'. split; assumption.
Defined.

(** ** The shape of the plan *)

Lemma batches_from_sum (provider : Provider) (last : Z) (n : nat) :
  0 < batchSize provider ->
  forall first,
    first <= last ->
    batches_left provider first last = n ->
    fold_right Z.add 0 (map snd (batches_from n provider first last))
    = last - first.
Proof.
  intros Hw. induction n as [| n IH]; intros first Hle Hn.
  - unfold batches_left in Hn.
    destruct (Z.leb_spec first last); [discriminate | lia].
  - cbn [batches_from map snd fold_right].
    pose proof (batches_left_next provider first last n Hw Hle Hn) as Hnext.
    destruct (Z.le_gt_cases (first + batchSize provider) last) as [Hin | Hout].
    + rewrite (IH _ Hin Hnext). lia.
    + unfold batches_left in Hnext.
      destruct (Z.leb_spec (first + batchSize provider) last); [lia |].
      subst n. cbn [batches_from map fold_right]. lia.
Qed.

Lemma batches_left_0 (provider : Provider) (highest : Z) :
  0 <= highest ->
  batches_left provider 0 highest
  = S (Z.to_nat (highest / batchSize provider)).
Proof.
  intros Hhighest. unfold batches_left.
  destruct (Z.leb_spec 0 highest); [| lia]. now rewrite Z.sub_0_r.
Qed.

(** X16. The counts of the plan. Every batch before the last has the batch
    size as count; the last starts at the largest multiple of the batch size
    that is at most the highest content ID, and its count is the rest of
    the division of the highest content ID by the batch size: 0 when the
    highest content ID is a multiple of the batch size. The counts add up
    to the highest content ID. *)
Theorem plan_counts (provider : Provider) (highest : Z) (fuel : nat) :
  0 < batchSize provider ->
  0 <= highest ->
  highest + batchSize provider < 2 ^ 64 ->
  let w := batchSize provider in
  let n := Z.to_nat (highest / w) in
  (S n < fuel)%nat ->
  exists bs,
    plan fuel provider highest = Some (Ok bs)
    /\ length bs = S n
    /\ (forall k, (k < n)%nat -> nth_error bs k = Some (Z.of_nat k * w, w))
    /\ nth_error bs n = Some (highest / w * w, highest mod w)
    /\ fold_right Z.add 0 (map snd bs) = highest.
Proof.
  intros Hw Hhighest Hmax w n Hfuel.
  pose proof (batches_left_0 provider highest Hhighest) as Hleft.
  assert (Hdiv : 0 <= highest / w) by (apply Z.div_pos; lia).
  pose proof (Z.div_mod highest w ltac:(lia)) as Hdm.
  pose proof (Z.mod_pos_bound highest w Hw) as Hmod.
  exists (batches provider highest).
  split; [apply plan_batches; try assumption; now rewrite Hleft |].
  unfold batches. rewrite Hleft. fold w. fold n.
  split; [apply batches_from_length |]. split; [| split].
  - intros k Hk. rewrite batches_from_nth by lia. fold w.
    assert (Z.of_nat k + 1 <= highest / w) by lia.
    assert ((Z.of_nat k + 1) * w <= highest / w * w)
      by (apply Z.mul_le_mono_nonneg_r; lia).
    f_equal. f_equal; lia.
  - rewrite batches_from_nth by lia. fold w. subst n.
    rewrite Z2Nat.id by assumption. f_equal. f_equal; lia.
  - subst n w. rewrite <- Hleft.
    rewrite (batches_from_sum provider highest _ Hw 0 Hhighest eq_refl). lia.
Qed.

Lemma plan_counts_witness :
  exists bs,
    plan 4 (NewProvider 100) 50000 = Some (Ok bs)
    /\ nth_error bs 2 = Some (50000 / 25000 * 25000, 50000 mod 25000)
    /\ fold_right Z.add 0 (map snd bs) = 50000.
Proof.
  destruct (plan_counts (NewProvider 100) 50000 4
              ltac:(simpl; lia) ltac:(lia) ltac:(simpl; lia)
              ltac:(vm_compute; lia))
    as (bs & Hplan & _ & _ & Hlast & Hsum).
  exists bs. split; [exact Hplan |]. split; [exact Hlast | exact Hsum].
Defined.

(** X17. The plan under growth of the catalog. When the highest content ID
    grows, the batches of the old plan are still planned, at the same
    places and with the same first content IDs; the count of a batch does
    not decrease, and a batch that had the batch size as count keeps it.
    Only the last batch of the old plan can change, and new batches come
    after it. *)
Theorem plan_grows_at_the_end (provider : Provider) (highest highest' : Z)
  (fuel : nat) :
  0 < batchSize provider ->
  0 <= highest <= highest' ->
  highest' + batchSize provider < 2 ^ 64 ->
  (S (Z.to_nat (highest' / batchSize provider)) < fuel)%nat ->
  exists bs bs',
    plan fuel provider highest = Some (Ok bs)
    /\ plan fuel provider highest' = Some (Ok bs')
    /\ (length bs <= length bs')%nat
    /\ forall k first cnt,
         nth_error bs k = Some (first, cnt) ->
         exists cnt',
           nth_error bs' k = Some (first, cnt')
           /\ cnt <= cnt'
           /\ (cnt = batchSize provider -> cnt' = batchSize provider).
Proof.
  intros Hw Hhighest Hmax Hfuel.
  assert (Hdiv : highest / batchSize provider <= highest' / batchSize provider)
    by (apply Z.div_le_mono; lia).
  assert (Hpos : 0 <= highest / batchSize provider)
    by (apply Z.div_pos; lia).
  exists (batches provider highest), (batches provider highest').
  split; [apply plan_batches; try lia; rewrite batches_left_0; lia |].
  split; [apply plan_batches; try lia; rewrite batches_left_0; lia |].
  unfold batches. rewrite !batches_left_0 by lia.
  rewrite !batches_from_length. split; [lia |].
  intros k first cnt Hnth.
  assert (Hk : (k < S (Z.to_nat (highest / batchSize provider)))%nat).
  { rewrite <- (batches_from_length provider highest
                  (S (Z.to_nat (highest / batchSize provider))) 0).
    apply nth_error_Some. congruence. }
  rewrite batches_from_nth in Hnth by assumption.
  injection Hnth as <- <-.
  eexists. split; [apply batches_from_nth; lia |]. lia.
Qed.

Lemma plan_grows_at_the_end_witness :
  exists bs bs',
    plan 6 (NewProvider 100) 60000 = Some (Ok bs)
    /\ plan 6 (NewProvider 100) 80000 = Some (Ok bs')
    /\ (length bs <= length bs')%nat.
Proof.
  destruct (plan_grows_at_the_end (NewProvider 100) 60000 80000 6
              ltac:(simpl; lia) ltac:(lia) ltac:(simpl; lia)
              ltac:(vm_compute; lia))
    as (bs & bs' & Hplan & Hplan' & Hlen & _).
  exists bs, bs'. repeat split; assumption.
Defined.

(** ** The calls of a tick, from the ledger at its start *)

Lemma flat_map_ext_in {A B : Type} (f g : A -> list B) (l : list A) :
  (forall a, In a l -> f a = g a) -> flat_map f l = flat_map g l.
Proof.
  induction l as [| x l IH]; intros Hext; [reflexivity |].
  cbn [flat_map]. rewrite (Hext x) by now left.
  rewrite IH; [reflexivity |]. intros a Ha. apply Hext. now right.
Qed.

(** [db_Save] of a row with a new count leaves the lookups of the other
    pairs as they were. *)
Lemma db_Where_db_Save_other (rows : list PublishedBatch)
  (row : PublishedBatch) (cnt : Z) (handle : string) (first : Z) :
  NoDup (map ID rows) ->
  In row rows ->
  (AutoretrieveHandle row <> handle \/ FirstContentID row <> first) ->
  db_Where (db_Save rows (set_Count row cnt)) handle first
  = db_Where rows handle first.
Proof.
  intros Hids Hin Hother.
  assert (Hno : forall r,
            AutoretrieveHandle r = AutoretrieveHandle row ->
            FirstContentID r = FirstContentID row ->
            (String.eqb (AutoretrieveHandle r) handle
             && (FirstContentID r =? first)) = false).
  { intros r Hh Hf. rewrite Hh, Hf.
    destruct (String.eqb_spec (AutoretrieveHandle row) handle);
      destruct (Z.eqb_spec (FirstContentID row) first);
      try reflexivity. tauto. }
  assert (Hall : forall r, In r rows ->
            (String.eqb
               (AutoretrieveHandle
                  (if ID r =? ID (set_Count row cnt)
                   then set_Count row cnt else r)) handle
             && (FirstContentID
                   (if ID r =? ID (set_Count row cnt)
                    then set_Count row cnt else r) =? first))
            = (String.eqb (AutoretrieveHandle r) handle
               && (FirstContentID r =? first))).
  { intros r Hr. cbn [ID set_Count].
    destruct (Z.eqb_spec (ID r) (ID row)) as [Hid | _]; [| reflexivity].
    rewrite (NoDup_map_inj ID rows Hids r row Hr Hin Hid).
    rewrite (Hno row eq_refl eq_refl).
    apply (Hno (set_Count row cnt)); reflexivity. }
  assert (Hsame : forall r, In r rows ->
            (String.eqb (AutoretrieveHandle r) handle
             && (FirstContentID r =? first)) = true ->
            (if ID r =? ID (set_Count row cnt) then set_Count row cnt else r)
            = r).
  { intros r Hr Hmatch. cbn [ID set_Count].
    destruct (Z.eqb_spec (ID r) (ID row)) as [Hid | _]; [| reflexivity].
    rewrite (NoDup_map_inj ID rows Hids r row Hr Hin Hid) in Hmatch.
    rewrite (Hno row eq_refl eq_refl) in Hmatch. discriminate. }
  unfold db_Where, db_Save. clear Hids Hin.
  induction rows as [| r rows IH]; [reflexivity |].
  cbn [map filter]. rewrite (Hall r) by now left.
  destruct (String.eqb (AutoretrieveHandle r) handle
            && (FirstContentID r =? first)) eqn:Hr.
  - rewrite (Hsame r) by (now left || assumption). f_equal.
    apply IH; intros; [apply Hall | apply Hsame]; auto; now right.
  - apply IH; intros; [apply Hall | apply Hsame]; auto; now right.
Qed.

Section PlannedCalls.
Context `{PeerLib}.
Variable database : Database.
Hypothesis lookups_answered :
  forall history handle first, database history (Where handle first) = true.

(** One batch: its calls are those read off the ledger, whatever the
    engine answers and whether the database writes or not, and the lookups
    of the other pairs are unchanged. *)
Lemma advertise_batch_calls (prov : Provider) (engine : Engine)
  (autoretrieve : Autoretrieve) (addrInfo : AddrInfo) (first cnt : Z)
  (s : State) :
  ledger_ok s ->
  exists s',
    advertise_batch prov engine database autoretrieve addrInfo first cnt s
    = Ok s'
    /\ ledger_ok s'
    /\ calls s'
       = calls s
         ++ batch_calls prov autoretrieve addrInfo (published_batches s)
              (first, cnt)
    /\ forall handle first',
         (Handle autoretrieve <> handle \/ first <> first') ->
         db_Where (published_batches s') handle first'
         = db_Where (published_batches s) handle first'.
Proof.
  intros Hok.
  destruct (advertise_batch_extends prov engine database autoretrieve
              addrInfo first cnt s I) as (s' & Hrun & _).
  exists s'. split; [exact Hrun |].
  split;
    [now apply (advertise_batch_ledger_ok _ _ _ _ _ _ _ _ _ Hok Hrun) |].
  split.
  - revert Hrun. unfold batch_calls. run_batch.
    rewrite lookups_answered. cbn [negb].
    destruct (db_Where (published_batches s) (Handle autoretrieve) first)
      as [| row rest].
    + destruct (makeContextID _) as [contextID | m | m]; [| | discriminate];
        batch_cases; intros Heq; injection Heq as <-;
        cbn [record_query record_call log_line set_batches calls];
        now rewrite ?app_nil_r.
    + destruct (Count row =? cnt).
      * intros Heq. injection Heq as <-.
        cbn [record_query calls].
        destruct (makeContextID _); now rewrite app_nil_r.
      * destruct (makeContextID _) as [contextID | m | m];
          [| | discriminate]; cbn [negb];
          [| intros Heq; injection Heq as <-;
             cbn [record_query log_line calls]; now rewrite app_nil_r].
        destruct (engine (calls s) _); batch_cases;
          intros Heq; injection Heq as <-;
          cbn [record_query record_call log_line set_batches calls];
          now rewrite <- app_assoc.
  - intros handle first' Hother.
    destruct (advertise_batch_ledger_cases _ _ _ _ _ _ _ _ _ Hrun)
      as [[-> _] | [(_ & -> & _) | (row & rest & Hw & -> & _)]].
    + reflexivity.
    + unfold db_Where. rewrite filter_app.
      cbn [filter AutoretrieveHandle FirstContentID].
      destruct (String.eqb_spec (Handle autoretrieve) handle);
        destruct (Z.eqb_spec first first'); cbn [andb];
        try (now rewrite app_nil_r). tauto.
    + assert (Hrow : In row (published_batches s)
                     /\ AutoretrieveHandle row = Handle autoretrieve
                     /\ FirstContentID row = first).
      { apply db_Where_In. rewrite Hw. now left. }
      destruct Hrow as (Hin & Hh & Hf).
      apply db_Where_db_Save_other; [apply Hok | exact Hin |].
      rewrite Hh, Hf. exact Hother.
Qed.

Lemma batch_calls_same_lookup (prov : Provider) (autoretrieve : Autoretrieve)
  (addrInfo : AddrInfo) (rows rows' : list PublishedBatch) (batch : Z * Z) :
  db_Where rows' (Handle autoretrieve) (fst batch)
  = db_Where rows (Handle autoretrieve) (fst batch) ->
  batch_calls prov autoretrieve addrInfo rows' batch
  = batch_calls prov autoretrieve addrInfo rows batch.
Proof.
  destruct batch as [first cnt]. cbn [fst]. unfold batch_calls.
  now intros ->.
Qed.

Lemma run_batches_calls (prov : Provider) (engine : Engine)
  (autoretrieve : Autoretrieve) (addrInfo : AddrInfo) (bs : list (Z * Z)) :
  NoDup (map fst bs) ->
  forall s,
    ledger_ok s ->
    exists s',
      run_batches
        (advertise_batch prov engine database autoretrieve addrInfo) bs s
      = Ok s'
      /\ ledger_ok s'
      /\ calls s'
         = calls s
           ++ flat_map (batch_calls prov autoretrieve addrInfo
                          (published_batches s)) bs
      /\ forall handle first',
           (Handle autoretrieve <> handle \/ ~ In first' (map fst bs)) ->
           db_Where (published_batches s') handle first'
           = db_Where (published_batches s) handle first'.
Proof.
  induction bs as [| [first cnt] bs IH]; intros Hnodup s Hok.
  - exists s. cbn [run_batches flat_map]. rewrite app_nil_r.
    split; [reflexivity |]. split; [exact Hok |].
    split; [reflexivity | reflexivity].
  - cbn [map fst] in Hnodup. apply NoDup_cons_iff in Hnodup.
    destruct Hnodup as [Hfresh Hnodup].
    destruct (advertise_batch_calls prov engine autoretrieve addrInfo
                first cnt s Hok) as (s1 & Hrun1 & Hok1 & Hcalls1 & Hlook1).
    destruct (IH Hnodup s1 Hok1) as (s' & Hrun & Hok' & Hcalls & Hlook).
    exists s'. cbn [run_batches]. rewrite Hrun1. cbn [bind].
    split; [exact Hrun |]. split; [exact Hok' |]. split.
    + rewrite Hcalls, Hcalls1, <- app_assoc. cbn [flat_map]. do 2 f_equal.
      apply flat_map_ext_in. intros [f c] Hin.
      apply batch_calls_same_lookup. cbn [fst]. apply Hlook1. right.
      intros ->. apply Hfresh. now apply (in_map fst) in Hin.
    + intros handle first' Hother. rewrite Hlook.
      * apply Hlook1. destruct Hother as [Hh | Hf]; [now left |].
        right. intros ->. apply Hf. now left.
      * destruct Hother as [Hh | Hf]; [now left |].
        right. intros Hin. apply Hf. now right.
Qed.

Variable prov : Provider.
Variable engine : Engine.
Variable highest : Z.
Variable fuel : nat.
Hypothesis width_positive : 0 < batchSize prov.
Hypothesis highest_fits : highest + batchSize prov < 2 ^ 64.
Hypothesis enough_fuel : (batches_left prov 0 highest < fuel)%nat.

Lemma autoretrieve_calls_same_lookup (turn : Z * Autoretrieve)
  (rows rows' : list PublishedBatch) :
  (forall first,
      db_Where rows' (Handle (snd turn)) first
      = db_Where rows (Handle (snd turn)) first) ->
  autoretrieve_calls prov rows' highest turn
  = autoretrieve_calls prov rows highest turn.
Proof.
  destruct turn as [now autoretrieve]. cbn [snd].
  intros Hlook. unfold autoretrieve_calls.
  destruct (offline prov now autoretrieve); [reflexivity |].
  destruct (Autoretrieve_AddrInfo autoretrieve) as [addrInfo |];
    [| reflexivity].
  apply flat_map_ext_in. intros batch _.
  apply batch_calls_same_lookup. apply Hlook.
Qed.

Lemma advertise_autoretrieve_calls (turn : Z * Autoretrieve) (s : State) :
  ledger_ok s ->
  exists s',
    advertise_autoretrieve fuel prov engine database highest turn s
    = Some (Ok s')
    /\ ledger_ok s'
    /\ calls s'
       = calls s ++ autoretrieve_calls prov (published_batches s) highest turn
    /\ forall handle first,
         Handle (snd turn) <> handle ->
         db_Where (published_batches s') handle first
         = db_Where (published_batches s) handle first.
Proof.
  destruct turn as [now autoretrieve]. cbn [snd].
  intros Hok. unfold advertise_autoretrieve, autoretrieve_calls.
  destruct (offline prov now autoretrieve).
  - exists s. rewrite app_nil_r. split; [reflexivity |].
    split; [exact Hok |]. split; reflexivity.
  - destruct (Autoretrieve_AddrInfo autoretrieve) as [addrInfo |].
    + rewrite (batch_loop_run _ prov highest width_positive highest_fits
                 (batches_left prov 0 highest) fuel 0 s)
        by (reflexivity || lia).
      fold (batches prov highest).
      destruct (run_batches_calls prov engine autoretrieve addrInfo
                  (batches prov highest)
                  (batches_from_NoDup prov highest _ width_positive 0)
                  s Hok)
        as (s' & Hrun & Hok' & Hcalls & Hlook).
      exists s'. rewrite Hrun. split; [reflexivity |].
      split; [exact Hok' |]. split; [exact Hcalls |].
      intros handle first Hother. apply Hlook. now left.
    + eexists. split; [reflexivity |]. split; [exact Hok |].
      cbn [log_line calls published_batches]. rewrite app_nil_r.
      split; reflexivity.
Qed.

Lemma advertise_autoretrieves_calls (autoretrieves : list (Z * Autoretrieve)) :
  NoDup (map (fun turn => Handle (snd turn)) autoretrieves) ->
  forall s,
    ledger_ok s ->
    exists s',
      advertise_autoretrieves fuel prov engine database highest
        autoretrieves s
      = Some (Ok s')
      /\ ledger_ok s'
      /\ calls s'
         = calls s
           ++ flat_map (autoretrieve_calls prov (published_batches s)
                          highest) autoretrieves.
Proof.
  induction autoretrieves as [| a rest IH]; intros Hnodup s Hok.
  - exists s. cbn [advertise_autoretrieves flat_map]. rewrite app_nil_r.
    split; [reflexivity |]. split; [exact Hok | reflexivity].
  - cbn [map] in Hnodup. apply NoDup_cons_iff in Hnodup.
    destruct Hnodup as [Hfresh Hnodup].
    destruct (advertise_autoretrieve_calls a s Hok)
      as (s1 & Hrun1 & Hok1 & Hcalls1 & Hlook1).
    destruct (IH Hnodup s1 Hok1) as (s' & Hrun & Hok' & Hcalls).
    exists s'. cbn [advertise_autoretrieves]. rewrite Hrun1.
    split; [exact Hrun |]. split; [exact Hok' |].
    rewrite Hcalls, Hcalls1, <- app_assoc. cbn [flat_map]. do 2 f_equal.
    apply flat_map_ext_in. intros b Hb.
    apply autoretrieve_calls_same_lookup. intros first.
    apply Hlook1. intros Heq. apply Hfresh. rewrite Heq.
    now apply (in_map (fun turn => Handle (snd turn))).
Qed.

End PlannedCalls.

Lemma turns_handles (clock : nat -> Z) (autoretrieves : list Autoretrieve) :
  map (fun turn => Handle (snd turn)) (turns clock autoretrieves)
  = map Handle autoretrieves.
Proof.
  unfold turns. generalize 0%nat.
  induction autoretrieves as [| a rest IH]; intros k; [reflexivity |].
  cbn [length seq map combine snd]. now rewrite IH.
Qed.

(** X18. The calls of a tick are read off the ledger at its start. For
    autoretrieves with distinct handles, a ledger in order and a database
    that answers every lookup, the tick ends, and the calls it makes are,
    for each autoretrieve that is online at its turn and whose address
    parses, in the order of the list, and for each planned batch, in order:
    nothing when the row of the batch has the planned count, a [NotifyPut]
    when the batch has no row, a [NotifyRemove] and a [NotifyPut] when its
    row has another count. The answers of the engine and the success of the
    writes change the ledger, not the calls. *)
Theorem tick_calls_are_planned `{PeerLib}
  (fuel : nat) (prov : Provider) (engine : Engine) (database : Database)
  (clock : nat -> Z) (highest : Z)
  (autoretrieves : list Autoretrieve) (st : State) :
  0 < batchSize prov ->
  0 <= highest ->
  highest + batchSize prov < 2 ^ 64 ->
  (S (Z.to_nat (highest / batchSize prov)) < fuel)%nat ->
  (forall history handle first,
      database history (Where handle first) = true) ->
  NoDup (map Handle autoretrieves) ->
  ledger_ok st ->
  exists st',
    tick fuel prov engine database clock (Found highest)
      (Found autoretrieves) st
    = Some (Ok st')
    /\ calls st'
       = calls st
         ++ flat_map (autoretrieve_calls prov (published_batches st) highest)
              (turns clock autoretrieves).
Proof.
  intros Hw Hhighest Hmax Hfuel Hlookups Hnodup Hok.
  assert (Hleft : (batches_left prov 0 highest < fuel)%nat)
    by (rewrite batches_left_0; assumption).
  rewrite <- (turns_handles clock) in Hnodup.
  destruct (advertise_autoretrieves_calls database Hlookups prov engine
              highest fuel Hw Hmax Hleft (turns clock autoretrieves)
              Hnodup st Hok)
    as (st' & Hrun & _ & Hcalls).
  exists st'. split; [exact Hrun | exact Hcalls].
Qed.

Lemma tick_calls_are_planned_witness :
  let row first cnt :=
    {| ID := first + 1; FirstContentID := first; Count := cnt;
       AutoretrieveHandle := "A" |} in
  let st := Example.state_of
              [row 0 25000; row 25000 25000; row 50000 10000] 50002 in
  exists st',
    tick 6 (NewProvider 100) (fun _ _ => false) Example.sound
      (Example.at_time 50) (Found 80000)
      (Found [Example.node "A" "/a" 0]) st = Some (Ok st')
    /\ calls st'
       = [NotifyRemove Example.peerA
            [0; 0; 195; 80; 0; 0; 97; 168; 0; 2; 47; 97];
          NotifyPut Example.addrA
            [0; 0; 195; 80; 0; 0; 97; 168; 0; 2; 47; 97] Bitswap;
          NotifyPut Example.addrA
            [0; 1; 36; 248; 0; 0; 97; 168; 0; 2; 47; 97] Bitswap].
Proof.
  intros row st.
  destruct (tick_calls_are_planned (H := Example.peer)
              6 (NewProvider 100) (fun _ _ => false) Example.sound
              (Example.at_time 50) 80000
              [Example.node "A" "/a" 0] st)
    as (st' & Hrun & Hcalls).
  - simpl; lia.
  - lia.
  - simpl; lia.
  - vm_compute; lia.
  - reflexivity.
  - repeat constructor. intros [].
  - split; [| split].
    + repeat constructor; simpl; intuition discriminate.
    + repeat constructor; simpl; intuition discriminate.
    + repeat constructor; simpl; lia.
  - exists st'. split; [exact Hrun |]. rewrite Hcalls. reflexivity.
Defined.
